(** * web-stream-tools: the Reader and the web/node stream bridge

    A shallow embedding of [Reader] (reader.js) and of [NodeReadable]
    (node-conversions.js).  JavaScript objects with identity (streams,
    byte arrays used as inputs, the arrays that serve as push-back buffers,
    the [Reader] objects themselves) live in an explicit store; every
    method is a function on that store which either returns, throws, or
    runs out of the fuel that bounds its [while] loop.  Asynchronous
    methods are run to completion, one after the other.  The inputs of a
    reader are web streams, byte arrays and strings; Node streams, which
    the constructor first converts with [nodeToWeb], are left out. *)

From Stdlib Require Import Ascii String ZArith Lia Strings.Byte DecimalString.
From stdpp Require Import base option list gmap.

(** * The program *)

(** ** Values *)

(** What a source may hand out and what callers may push back:
    [undefined], a string, or a [Uint8Array] (by contents). *)
Inductive val : Type :=
  | VUndef
  | VStr (s : string)
  | VBytes (b : list byte).

Inductive exn : Type :=
  | TypeError
  | MalformedInput
  | SourceError (code : nat).

(** [{ done, value }] *)
Record result : Type := Result { done : bool; value : val }.

(** [value.length]; reading a property of [undefined] is a [TypeError]. *)
Definition length_of (v : val) : exn + nat :=
  match v with
  | VUndef => inl TypeError
  | VStr s => inr (String.length s)
  | VBytes b => inr (List.length b)
  end.

(** [value && value.length], the predicate of the filter in [unshift]. *)
Definition kept (v : val) : bool :=
  match v with
  | VUndef => false
  | VStr s => negb (Nat.eqb (String.length s) 0)
  | VBytes b => negb (Nat.eqb (List.length b) 0)
  end.

(** ** String primitives *)

Fixpoint str_take (n : nat) (s : string) : string :=
  match n, s with
  | S n', String c s' => String c (str_take n' s')
  | _, _ => EmptyString
  end.

Fixpoint str_drop (n : nat) (s : string) : string :=
  match n, s with
  | S n', String _ s' => str_drop n' s'
  | _, _ => s
  end.

(** [s.substr(start, len)] and [s.substr(start)] *)
Definition substr (s : string) (start : nat) (len : option nat) : string :=
  match len with
  | Some k => str_take k (str_drop start s)
  | None => str_drop start s
  end.

(** [s.indexOf(c)]: the position of the first [c], or -1. *)
Fixpoint indexOf (c : ascii) (s : string) : Z :=
  match s with
  | EmptyString => (-1)%Z
  | String d s' =>
      if Ascii.eqb d c then 0%Z
      else let i := indexOf c s' in
           if (i <? 0)%Z then (-1)%Z else (i + 1)%Z
  end.

Definition newline : ascii := "010"%char.

Fixpoint str_append (s1 s2 : string) : string :=
  match s1 with
  | EmptyString => s2
  | String c s1' => String c (str_append s1' s2)
  end.

(** [l.join('')] *)
Definition join (l : list string) : string :=
  fold_right str_append EmptyString l.

Definition decimal (b : byte) : string :=
  NilEmpty.string_of_uint (N.to_uint (Byte.to_N b)).

Fixpoint join_with (sep : string) (l : list string) : string :=
  match l with
  | [] => EmptyString
  | [x] => x
  | x :: rest => str_append x (str_append sep (join_with sep rest))
  end.

(** [value + ''] *)
Definition to_text (v : val) : string :=
  match v with
  | VUndef => "undefined"%string
  | VStr s => s
  | VBytes b => join_with ","%string (decimal <$> b)
  end.

(** ** Chunk primitives *)

(** util.js, [isUint8Array] *)
Definition isUint8Array (v : val) : bool :=
  match v with VBytes _ => true | _ => false end.

Definition isString (v : val) : bool :=
  match v with VStr _ => true | _ => false end.

Definition bytes_of (v : val) : list byte :=
  match v with VBytes b => b | _ => [] end.

Definition text_of (v : val) : string :=
  match v with VStr s => s | _ => EmptyString end.

(** util.js, [concatUint8Array]: a single element is returned as it is,
    otherwise every element must be a [Uint8Array]. *)
Definition concatUint8Array (arrays : list val) : exn + val :=
  match arrays with
  | [x] => inr x
  | _ =>
      if forallb isUint8Array arrays
      then inr (VBytes (arrays ≫= bytes_of))
      else inl MalformedInput
  end.

(** Modelled from the spec: [streams.concat] (streams.js is not among the
    sources).  Text chunks are joined, byte chunks go through
    [concatUint8Array], and incompatible representations raise the
    malformed-input error. *)
Definition concat (l : list val) : exn + val :=
  match l with
  | VStr _ :: _ =>
      if forallb isString l
      then inr (VStr (join (text_of <$> l)))
      else inl MalformedInput
  | _ => concatUint8Array l
  end.

(** Modelled from the spec: [streams.slice(chunk, begin, end)] (streams.js
    is not among the sources), pure and total over chunks; [end] absent
    means up to the end of the chunk. *)
Definition slice (v : val) (begin : nat) (end_ : option nat) : exn + val :=
  match v with
  | VUndef => inl TypeError
  | VStr s => inr (VStr (substr s begin (from_option (λ e, Some (e - begin)) None end_)))
  | VBytes b =>
      inr (VBytes (match end_ with
                   | Some e => take (e - begin) (drop begin b)
                   | None => drop begin b
                   end))
  end.

(** ** The store *)

Definition loc := positive.

(** How a source ends once its queue is drained. *)
Inductive ending : Type :=
  | Closed
  | Errored (e : exn).

(** A web [ReadableStream]: the chunks it will still deliver, how it ends,
    whether a reader holds its lock, and the number of readers handed out so
    far (the current handle is the [gen]-th). *)
Record stream : Type := Stream {
  queue : list val;
  ends : ending;
  locked : bool;
  gen : nat
}.

(** Data other than streams: a [Uint8Array] (an object: identity and
    contents) or a primitive string. *)
Inductive scalar : Type :=
  | SBytes (o : loc) (b : list byte)
  | SStr (s : string).

(** The argument of [new Reader(input)]. *)
Inductive input : Type :=
  | IStream (s : loc)
  | IScalar (x : scalar).

(** The two ways the constructor fills [_read] / [_releaseLock]: bound to a
    stream's reader handle, or the pair of closures over [input] and the
    local [doneReading]. *)
Inductive source : Type :=
  | SrcHandle (s : loc) (h : nat)
  | SrcOneShot (x : scalar) (doneReading : bool).

Record reader : Type := Reader {
  r_stream : input;                 (* this.stream *)
  r_externalBuffer : option loc;    (* this[externalBuffer] *)
  r_source : source                 (* this._read, this._releaseLock *)
}.

(** Calls that reach the underlying source. *)
Inductive event : Type :=
  | EvPull (this : loc)
  | EvRelease (this : loc).

Record world : Type := World {
  streams : gmap loc stream;
  arrays : gmap loc (list val);         (* array objects *)
  attached : gmap loc loc;              (* input[externalBuffer] *)
  doneReadingSet : gset loc;
  readers : gmap loc reader;
  log : list event
}.

Definition set_streams (f : gmap loc stream → gmap loc stream) (w : world) : world :=
  World (f (streams w)) (arrays w) (attached w) (doneReadingSet w) (readers w) (log w).
Definition set_arrays (f : gmap loc (list val) → gmap loc (list val)) (w : world) : world :=
  World (streams w) (f (arrays w)) (attached w) (doneReadingSet w) (readers w) (log w).
Definition set_attached (f : gmap loc loc → gmap loc loc) (w : world) : world :=
  World (streams w) (arrays w) (f (attached w)) (doneReadingSet w) (readers w) (log w).
Definition set_doneReadingSet (f : gset loc → gset loc) (w : world) : world :=
  World (streams w) (arrays w) (attached w) (f (doneReadingSet w)) (readers w) (log w).
Definition set_readers (f : gmap loc reader → gmap loc reader) (w : world) : world :=
  World (streams w) (arrays w) (attached w) (doneReadingSet w) (f (readers w)) (log w).
Definition emit_event (e : event) (w : world) : world :=
  World (streams w) (arrays w) (attached w) (doneReadingSet w) (readers w) (log w ++ [e]).

(** ** Computations *)

Inductive outcome (A : Type) : Type :=
  | Ok (a : A) (w : world)
  | Throw (e : exn) (w : world)
  | OutOfFuel.
Arguments Ok {A} a w.
Arguments Throw {A} e w.
Arguments OutOfFuel {A}.

Definition M (A : Type) : Type := world → outcome A.

Definition ret {A} (a : A) : M A := λ w, Ok a w.
Definition throw {A} (e : exn) : M A := λ w, Throw e w.
Definition bind {A B} (m : M A) (k : A → M B) : M B :=
  λ w, match m w with
       | Ok a w' => k a w'
       | Throw e w' => Throw e w'
       | OutOfFuel => OutOfFuel
       end.
Definition lift {A} (r : exn + A) : M A :=
  match r with inl e => throw e | inr a => ret a end.
Definition modify (f : world → world) : M unit := λ w, Ok tt (f w).

Notation "'let*' x := m 'in' k" := (bind m (λ x, k))
  (at level 10, x name, m at level 100, k at level 200).
Notation "m ;;; k" := (bind m (λ _, k))
  (at level 100, k at level 200, right associativity).

Definition world_of {A} (o : outcome A) (w0 : world) : world :=
  match o with Ok _ w | Throw _ w => w | OutOfFuel => w0 end.

(** ** The platform's stream reader *)

(** [stream.getReader()]: refused while the stream is locked. *)
Definition getReader (s : loc) : M nat := λ w,
  match streams w !! s with
  | Some st =>
      if locked st then Throw TypeError w
      else Ok (S (gen st))
              (set_streams <[s := Stream (queue st) (ends st) true (S (gen st))]> w)
  | None => Throw TypeError w
  end.

(** Does handle [h] still hold the lock of [st]? *)
Definition holds (st : stream) (h : nat) : bool :=
  locked st && Nat.eqb (gen st) h.

(** [handle.read()] *)
Definition handle_read (s : loc) (h : nat) : M result := λ w,
  match streams w !! s with
  | Some st =>
      if holds st h then
        match queue st with
        | v :: q =>
            Ok (Result false v)
               (set_streams <[s := Stream q (ends st) (locked st) (gen st)]> w)
        | [] =>
            match ends st with
            | Closed => Ok (Result true VUndef) w
            | Errored e => Throw e w
            end
        end
      else Throw TypeError w
  | None => Throw TypeError w
  end.

(** [handle.releaseLock()]: nothing to do on a handle already released. *)
Definition handle_releaseLock (s : loc) (h : nat) : M unit := λ w,
  match streams w !! s with
  | Some st =>
      if holds st h
      then Ok tt (set_streams <[s := Stream (queue st) (ends st) false (gen st)]> w)
      else Ok tt w
  | None => Ok tt w
  end.

(** ** Reader *)

Definition scalar_object (x : scalar) : option loc :=
  match x with SBytes o _ => Some o | SStr _ => None end.

Definition scalar_value (x : scalar) : val :=
  match x with SBytes _ b => VBytes b | SStr s => VStr s end.

Definition input_object (i : input) : option loc :=
  match i with IStream s => Some s | IScalar x => scalar_object x end.

(** [input[externalBuffer]]; a primitive has no such property. *)
Definition input_buffer (i : input) (w : world) : option loc :=
  match input_object i with Some o => attached w !! o | None => None end.

(** [doneReadingSet.has(input)] *)
Definition doneReadingSet_has (x : scalar) (w : world) : bool :=
  match scalar_object x with
  | Some o => bool_decide (o ∈ doneReadingSet w)
  | None => false
  end.

(** The elements of array [a]; a location that holds no array reads as the
    empty array. *)
Definition array_contents (a : loc) (w : world) : list val :=
  default [] (arrays w !! a).

Definition new_array (l : list val) : M loc := λ w,
  let a := fresh (dom (arrays w)) in Ok a (set_arrays <[a := l]> w).

Definition new_object (r : reader) : M loc := λ w,
  let this := fresh (dom (readers w)) in Ok this (set_readers <[this := r]> w).

Definition this_reader (this : loc) : M reader := λ w,
  match readers w !! this with
  | Some r => Ok r w
  | None => Throw TypeError w
  end.

Definition get {A} (f : world → A) : M A := λ w, Ok (f w) w.

(** [new Reader(input)] *)
Definition Reader_new (i : input) : M loc :=
  let* inherited := get (input_buffer i) in
  let* buffer :=
    match inherited with
    | Some a => let* l := get (array_contents a) in
                let* a' := new_array l in ret (Some a')     (* .slice() *)
    | None => ret None
    end in
  match i with
  | IStream s =>
      let* h := getReader s in
      new_object (Reader i buffer (SrcHandle s h))
  | IScalar x =>
      new_object (Reader i buffer (SrcOneShot x false))
  end.

(** [this._read()] *)
Definition _read (this : loc) : M result :=
  let* r := this_reader this in
  modify (emit_event (EvPull this));;;
  match r_source r with
  | SrcHandle s h => handle_read s h
  | SrcOneShot x doneReading =>
      let* has := get (doneReadingSet_has x) in
      if doneReading || has then ret (Result true VUndef)
      else
        modify (set_readers
                  <[this := Reader (r_stream r) (r_externalBuffer r) (SrcOneShot x true)]>);;;
        ret (Result false (scalar_value x))
  end.

(** [Reader.prototype.read] *)
Definition read (this : loc) : M result :=
  let* r := this_reader this in
  match r_externalBuffer r with
  | Some a =>
      let* l := get (array_contents a) in
      match l with
      | value :: rest =>
          modify (set_arrays <[a := rest]>);;;        (* .shift() *)
          ret (Result false value)
      | [] => _read this
      end
  | None => _read this
  end.

(** [this._releaseLock()] *)
Definition _releaseLock (this : loc) : M unit :=
  let* r := this_reader this in
  modify (emit_event (EvRelease this));;;
  match r_source r with
  | SrcHandle s h => handle_releaseLock s h
  | SrcOneShot x doneReading =>
      if doneReading then
        match scalar_object x with
        | Some o => modify (set_doneReadingSet (λ X, {[o]} ∪ X))
        | None => ret tt                 (* add throws, caught *)
        end
      else ret tt
  end.

(** [Reader.prototype.releaseLock]; the file is in strict mode, where
    setting a property on a primitive throws. *)
Definition releaseLock (this : loc) : M unit :=
  let* r := this_reader this in
  match r_externalBuffer r with
  | Some a =>
      match input_object (r_stream r) with
      | Some o => modify (set_attached <[o := a]>)
      | None => throw TypeError
      end
  | None => ret tt
  end;;;
  _releaseLock this.

(** [Reader.prototype.unshift] *)
Definition unshift (this : loc) (values : list val) : M unit :=
  let* r := this_reader this in
  let* a :=
    match r_externalBuffer r with
    | Some a => ret a
    | None =>
        let* a := new_array [] in
        modify (set_readers <[this := Reader (r_stream r) (Some a) (r_source r)]>);;;
        ret a
    end in
  let* l := get (array_contents a) in
  modify (set_arrays <[a := List.filter kept values ++ l]>).

(** ** Fuel for the loops *)

(** The chunks a reader can still obtain: first its push-back buffer, then
    what its source will deliver.  Every iteration of a loop below that
    does not leave the loop takes one of them. *)
Definition buffered (this : loc) (w : world) : list val :=
  match readers w !! this with
  | Some r =>
      match r_externalBuffer r with
      | Some a => array_contents a w
      | None => []
      end
  | None => []
  end.

Definition source_ahead (src : source) (w : world) : list val :=
  match src with
  | SrcHandle s h =>
      match streams w !! s with
      | Some st => if holds st h then queue st else []
      | None => []
      end
  | SrcOneShot x doneReading =>
      if doneReading || doneReadingSet_has x w then [] else [scalar_value x]
  end.

Definition ahead (this : loc) (w : world) : list val :=
  buffered this w ++
  match readers w !! this with
  | Some r => source_ahead (r_source r) w
  | None => []
  end.

Definition enough_fuel (this : loc) (w : world) : nat := S (length (ahead this w)).

(** ** Reader, continued *)

(** A single byte or character, the result of [readByte]. *)
Inductive element : Type :=
  | EUndef
  | EChar (c : ascii)
  | EByte (b : byte).

(** [value[0]] *)
Definition first_element (v : val) : exn + element :=
  match v with
  | VUndef => inl TypeError
  | VStr (String c _) => inr (EChar c)
  | VBytes (b :: _) => inr (EByte b)
  | _ => inr EUndef
  end.

Definition truthy (v : val) : bool :=
  match v with
  | VUndef => false
  | VStr EmptyString => false
  | _ => true
  end.

(** [Reader.prototype.readLine]: one iteration of the [while] per unit of
    fuel; [buffer] is the local array of line fragments. *)
Fixpoint readLine_loop (fuel : nat) (this : loc) (buffer : list val) : M val :=
  match fuel with
  | 0 => λ _, OutOfFuel
  | S fuel' =>
      let* r := read this in
      let value := to_text (value r) in
      if done r then
        match buffer with
        | [] => ret VUndef
        | _ => lift (concat buffer)
        end
      else
        let lineEndIndex := (indexOf newline value + 1)%Z in
        let* found :=
          if (lineEndIndex =? 0)%Z then ret (VUndef, buffer)
          else
            let* line :=
              lift (concat (buffer ++ [VStr (substr value 0 (Some (Z.to_nat lineEndIndex)))])) in
            ret (line, []) in
        let returnVal := fst found in
        let buffer :=
          if (lineEndIndex =? Z.of_nat (String.length value))%Z then snd found
          else snd found ++ [VStr (substr value (Z.to_nat lineEndIndex) None)] in
        if truthy returnVal then
          unshift this buffer;;;
          ret returnVal
        else readLine_loop fuel' this buffer
  end.

Definition readLine (this : loc) : M val :=
  let* fuel := get (enough_fuel this) in
  readLine_loop fuel this [].

(** [Reader.prototype.readByte] *)
Definition readByte (this : loc) : M element :=
  let* r := read this in
  if done r then ret EUndef
  else
    let* byte := lift (first_element (value r)) in
    let* rest := lift (slice (value r) 1 None) in
    unshift this [rest];;;
    ret byte.

(** [Reader.prototype.readBytes] *)
Fixpoint readBytes_loop (fuel : nat) (this : loc) (length : nat)
    (buffer : list val) (bufferLength : nat) : M val :=
  match fuel with
  | 0 => λ _, OutOfFuel
  | S fuel' =>
      let* r := read this in
      if done r then
        match buffer with
        | [] => ret VUndef
        | _ => lift (concat buffer)
        end
      else
        let buffer := buffer ++ [value r] in
        let* n := lift (length_of (value r)) in
        let bufferLength := bufferLength + n in
        if length <=? bufferLength then
          let* bufferConcat := lift (concat buffer) in
          let* rest := lift (slice bufferConcat length None) in
          unshift this [rest];;;
          lift (slice bufferConcat 0 (Some length))
        else readBytes_loop fuel' this length buffer bufferLength
  end.

Definition readBytes (this : loc) (length : nat) : M val :=
  let* fuel := get (enough_fuel this) in
  readBytes_loop fuel this length [] 0.

(** [Reader.prototype.peekBytes] *)
Definition peekBytes (this : loc) (length : nat) : M val :=
  let* bytes := readBytes this length in
  unshift this [bytes];;;
  ret bytes.

(** [Reader.prototype.readToEnd] *)
Fixpoint readToEnd_loop (fuel : nat) (this : loc) (result : list val) : M (list val) :=
  match fuel with
  | 0 => λ _, OutOfFuel
  | S fuel' =>
      let* r := read this in
      if done r then ret result
      else readToEnd_loop fuel' this (result ++ [value r])
  end.

Definition readToEnd {A} (this : loc) (join : list val → exn + A) : M A :=
  let* fuel := get (enough_fuel this) in
  let* result := readToEnd_loop fuel this [] in
  lift (join result).

(** ** NodeReadable: a web stream read as a Node stream *)

Inductive promise : Type :=
  | Pending
  | Fulfilled
  | Rejected (e : exn).

(** How a piece of synchronous code completes. *)
Inductive completion : Type :=
  | Normal
  | Abrupt (e : exn)
  | Unfinished.

Section NodeReadable.

(** Node's [stream.Readable], the base class, is taken as given: the state
    of the consuming side, what [push] answers there (whether more data is
    wanted) or throws, and what the listeners of an ['error'] event do
    ([emit] throws when there is none). *)
Context {Sink : Type}.
Variable push : option val → Sink → (exn + bool) * Sink.
Variable emit_error : exn → Sink → option exn * Sink.

Record NodeReadable : Type := MkNodeReadable {
  _webStream : loc;
  _reader : loc;
  _reading : bool;
  _cancelling : bool;
  _doneReadingPromise : promise;
  base : Sink;
  errors : list exn           (* the 'error' events emitted so far *)
}.

Definition set_reading (b : bool) (nr : NodeReadable) : NodeReadable :=
  MkNodeReadable (_webStream nr) (_reader nr) b (_cancelling nr) (_doneReadingPromise nr)
                 (base nr) (errors nr).
Definition set_base (k : Sink) (nr : NodeReadable) : NodeReadable :=
  MkNodeReadable (_webStream nr) (_reader nr) (_reading nr) (_cancelling nr)
                 (_doneReadingPromise nr) k (errors nr).
Definition set_promise (p : promise) (nr : NodeReadable) : NodeReadable :=
  MkNodeReadable (_webStream nr) (_reader nr) (_reading nr) (_cancelling nr) p
                 (base nr) (errors nr).
Definition add_error (e : exn) (nr : NodeReadable) : NodeReadable :=
  MkNodeReadable (_webStream nr) (_reader nr) (_reading nr) (_cancelling nr)
                 (_doneReadingPromise nr) (base nr) (errors nr ++ [e]).

(** Modelled from the spec: [streams.getReader(webStream)] (streams.js is
    not among the sources) gives the adapter a reader on the pull source,
    here a [Reader]. *)
Definition NodeReadable_new (webStream : loc) (options : Sink) : M NodeReadable :=
  let* reader := Reader_new (IStream webStream) in
  ret (MkNodeReadable webStream reader false false Fulfilled options []).

(** The [while] loop of [doRead], inside its [try]. *)
Fixpoint drain (fuel : nat) (nr : NodeReadable) (w : world)
    : completion * (NodeReadable * world) :=
  match fuel with
  | 0 => (Unfinished, (nr, w))
  | S fuel' =>
      match read (_reader nr) w with
      | OutOfFuel => (Unfinished, (nr, w))
      | Throw e w' => (Abrupt e, (nr, w'))
      | Ok r w' =>
          if done r then
            match push None (base nr) with
            | (inl e, k) => (Abrupt e, (set_base k nr, w'))
            | (inr _, k) => (Normal, (set_base k nr, w'))
            end
          else
            match push (Some (value r)) (base nr) with
            | (inl e, k) => (Abrupt e, (set_base k nr, w'))
            | (inr more, k) =>
                let nr := set_base k nr in
                if negb more || _cancelling nr
                then (Normal, (set_reading false nr, w'))
                else drain fuel' nr w'
            end
      end
  end.

(** [this.emit('error', e)] *)
Definition emit (e : exn) (nr : NodeReadable) : completion * NodeReadable :=
  let nr := add_error e nr in
  match emit_error e (base nr) with
  | (None, k) => (Normal, set_base k nr)
  | (Some e', k) => (Abrupt e', set_base k nr)
  end.

(** [doRead()]: the call of an asynchronous function yields its promise;
    whatever its body throws settles the promise and goes nowhere else. *)
Definition doRead (nr : NodeReadable) (w : world) : promise * (NodeReadable * world) :=
  match drain (enough_fuel (_reader nr) w) nr w with
  | (Normal, st) => (Fulfilled, st)
  | (Unfinished, st) => (Pending, st)
  | (Abrupt e, (nr', w')) =>                          (* catch (e) *)
      match emit e nr' with
      | (Abrupt e', nr'') => (Rejected e', (nr'', w'))
      | (_, nr'') => (Fulfilled, (nr'', w'))
      end
  end.

(** [NodeReadable.prototype._read(size)] *)
Definition NodeReadable_read (nr : NodeReadable) (size : nat) (w : world)
    : completion * (NodeReadable * world) :=
  if _reading nr || _cancelling nr then (Normal, (nr, w))
  else
    let nr := set_reading true nr in
    let '(p, (nr, w)) := doRead nr w in
    (Normal, (set_promise p nr, w)).

End NodeReadable.

(** * Notions used in the statements *)

(** ** What a reader will see *)

(** What the source does once nothing is ahead. *)
Inductive at_end : Type :=
  | EndDone
  | EndThrow (e : exn).

Definition source_end (src : source) (w : world) : at_end :=
  match src with
  | SrcHandle s h =>
      match streams w !! s with
      | Some st =>
          if holds st h then
            match ends st with Closed => EndDone | Errored e => EndThrow e end
          else EndThrow TypeError
      | None => EndThrow TypeError
      end
  | SrcOneShot _ _ => EndDone
  end.

(** The view of a reader: the chunks in its push-back buffer, the chunks
    its source will still deliver, and how the source ends. *)
Definition view (this : loc) (w : world) : option (list val * list val * at_end) :=
  match readers w !! this with
  | Some r =>
      Some (buffered this w, source_ahead (r_source r) w, source_end (r_source r) w)
  | None => None
  end.

(** ** The loops, on views *)

(** What a method does, told on the view: it returns [a] after taking
    [taken] chunks from what was ahead and pushing [pushed] back, or it
    raises. *)
Inductive answer (A : Type) : Type :=
  | Returns (a : A) (taken : nat) (pushed : list val)
  | Raises (e : exn).
Arguments Returns {A} a taken pushed.
Arguments Raises {A} e.

Definition took {A} (p : answer A) : answer A :=
  match p with
  | Returns a k pushed => Returns a (S k) pushed
  | Raises e => Raises e
  end.

Definition agrees {A} (o : outcome A) (p : answer A)
    (this : loc) (b s : list val) (e : at_end) : Prop :=
  match p with
  | Returns a k pushed =>
      ∃ w', o = Ok a w' ∧
            view this w' = Some (pushed ++ drop k b, drop (k - length b) s, e)
  | Raises x => ∃ w', o = Throw x w'
  end.

Definition answer_of {A} (r : exn + A) (taken : nat) (pushed : list val) : answer A :=
  match r with
  | inl x => Raises x
  | inr a => Returns a taken pushed
  end.

(** [readBytes] on the list [l] of chunks ahead. *)
Fixpoint readBytes_on (length : nat) (buffer : list val) (bufferLength : nat)
    (l : list val) (e : at_end) : answer val :=
  match l with
  | [] =>
      match e with
      | EndDone =>
          match buffer with
          | [] => Returns VUndef 0 []
          | _ => answer_of (concat buffer) 0 []
          end
      | EndThrow x => Raises x
      end
  | v :: l' =>
      match length_of v with
      | inl x => Raises x
      | inr n =>
          if length <=? bufferLength + n then
            match concat (buffer ++ [v]) with
            | inl x => Raises x
            | inr bufferConcat =>
                match slice bufferConcat length None with
                | inl x => Raises x
                | inr rest =>
                    answer_of (slice bufferConcat 0 (Some length)) 1
                              (List.filter kept [rest])
                end
            end
          else took (readBytes_on length (buffer ++ [v]) (bufferLength + n) l' e)
      end
  end.

(** ** Chunks: sizes and contents *)

(** A chunk is a present value; its size is its [length]. *)
Definition is_chunk (v : val) : Prop := v ≠ VUndef.

Definition size (v : val) : nat :=
  match v with
  | VUndef => 0
  | VStr s => String.length s
  | VBytes b => length b
  end.

Definition total_length (l : list val) : nat := foldr (λ v n, size v + n) 0 l.

(** The units (characters or bytes) a value consists of. *)
Fixpoint chars (s : string) : list element :=
  match s with
  | EmptyString => []
  | String c s' => EChar c :: chars s'
  end.

Definition units (v : val) : list element :=
  match v with
  | VUndef => []
  | VStr s => chars s
  | VBytes b => EByte <$> b
  end.

(** The units of a sequence of chunks, in reading order. *)
Definition content (l : list val) : list element := l ≫= units.

(** A present, non-empty chunk. *)
Definition nonempty (v : val) : Prop := is_chunk v ∧ 0 < size v.

(** ** Termination and invariants *)

Definition returns {A} (o : outcome A) : Prop := o ≠ OutOfFuel.

Definition total {A} (m : M A) : Prop := ∀ w, returns (m w).

Definition preserves {A} (P : world → Prop) (m : M A) : Prop :=
  ∀ w, P w → match m w with
             | Ok _ w' | Throw _ w' => P w'
             | OutOfFuel => True
             end.

(** The invariant of the push-back buffers: every array of the store, hence
    every reader's buffer and every buffer attached to an input, holds only
    present, non-empty chunks. *)
Definition buffers_ok (w : world) : Prop :=
  ∀ a l, arrays w !! a = Some l → Forall nonempty l.

(** ** The public operations of a reader *)

Inductive operation : Type :=
  | Construct (i : input)
  | Read (this : loc)
  | ReadByte (this : loc)
  | ReadBytes (this : loc) (length : nat)
  | PeekBytes (this : loc) (length : nat)
  | ReadLine (this : loc)
  | Unshift (this : loc) (values : list val)
  | ReleaseLock (this : loc)
  | ReadToEnd (this : loc).

Definition void {A} (m : M A) : M unit := let* _ := m in ret tt.

Definition perform (o : operation) : M unit :=
  match o with
  | Construct i => void (Reader_new i)
  | Read this => void (read this)
  | ReadByte this => void (readByte this)
  | ReadBytes this length => void (readBytes this length)
  | PeekBytes this length => void (peekBytes this length)
  | ReadLine this => void (readLine this)
  | Unshift this values => unshift this values
  | ReleaseLock this => releaseLock this
  | ReadToEnd this => void (readToEnd this concat)
  end.

(** ** Scenarios *)

(** [k] successive calls of [read]. *)
Fixpoint reads (k : nat) (this : loc) : M (list result) :=
  match k with
  | 0 => ret []
  | S k' =>
      let* r := read this in
      let* rs := reads k' this in
      ret (r :: rs)
  end.

(** Wrap [x], read it to the end, release, wrap [x] again and read once. *)
Definition wrap_twice (x : scalar) : M result :=
  let* first := Reader_new (IScalar x) in
  let* _ := readToEnd first (λ chunks, inr chunks) in
  releaseLock first;;;
  let* second := Reader_new (IScalar x) in
  read second.

(** What reading leaves alone in a reader of a single value. *)
Definition same_reader (this : loc) (i : input) (buf : option loc) (x : scalar)
    (X : gmap loc loc) (D : gset loc) (w : world) : Prop :=
  attached w = X ∧ doneReadingSet w = D ∧
  ∃ d, readers w !! this = Some (Reader i buf (SrcOneShot x d)).

Definition empty_world : world := World ∅ ∅ ∅ ∅ ∅ [].

(** A store with one web stream, at location 1, that will deliver [chunks]
    and then end as [e]. *)
Definition web_stream (chunks : list val) (e : ending) : world :=
  World {[ 1%positive := Stream chunks e false 0 ]} ∅ ∅ ∅ ∅ [].

Definition after {A} (m : M A) (w : world) : world := world_of (m w) w.

Definition nl : string := String newline EmptyString.

(** The chunks "ab", "c\nde", "f\n", "g". *)
Definition four_chunks : list val :=
  [VStr "ab"; VStr (str_append "c" (str_append nl "de"));
   VStr (str_append "f" nl); VStr "g"].

Definition four_lines : M (list val) :=
  let* this := Reader_new (IStream 1%positive) in
  let* l1 := readLine this in
  let* l2 := readLine this in
  let* l3 := readLine this in
  let* l4 := readLine this in
  ret [l1; l2; l3; l4].

Definition peek_then_read (i : input) (length : nat) : M (val * val) :=
  let* this := Reader_new i in
  let* peeked := peekBytes this length in
  let* bytes := readBytes this length in
  ret (peeked, bytes).

Definition release_then_unshift : M (list val) :=
  let* first := Reader_new (IStream 1%positive) in
  unshift first [VStr "x"];;;
  releaseLock first;;;
  unshift first [VStr "y"];;;
  let* second := Reader_new (IStream 1%positive) in
  get (buffered second).

Definition release_after_peek : M (option (list val)) :=
  let* first := Reader_new (IStream 1%positive) in
  let* _ := peekBytes first 1 in
  releaseLock first;;;
  get (λ w, a ← attached w !! 1%positive; arrays w !! a).

(** A reader, at location 1, over a stream that will deliver "ab", "cd". *)
Definition two_chunks : world :=
  after (Reader_new (IStream 1%positive)) (web_stream [VStr "ab"; VStr "cd"] Closed).

(** The same reader after [unshift("x", "y")]. *)
Definition two_buffered : world :=
  after (unshift 1%positive [VStr "x"; VStr "y"]) two_chunks.

(** A reader, at location 1, over a stream that has terminated. *)
Definition drained : world :=
  after (Reader_new (IStream 1%positive)) (web_stream [] Closed).

(** A consumer that records what is pushed and always wants more, with a
    listener for errors. *)
Definition recording_push (v : option val) (k : list (option val))
    : (exn + bool) * list (option val) := (inr true, k ++ [v]).
Definition listening (e : exn) (k : list (option val))
    : option exn * list (option val) := (None, k).

(** A reader, at location 1, over a stream that delivers "a" and fails. *)
Definition failing : world :=
  after (Reader_new (IStream 1%positive))
        (web_stream [VStr "a"] (Errored (SourceError 7))).

(** ** The adapter and its consumer *)

(** The consumer after [push] was called with each of [vs] in turn. *)
Definition pushes {Sink} (push : option val → Sink → (exn + bool) * Sink)
    (vs : list (option val)) (k : Sink) : Sink :=
  foldl (λ k v, snd (push v k)) k vs.

(** Whether the consumer, from [k], takes each chunk of [vs] in turn and
    asks for more every time. *)
Fixpoint accepts {Sink} (push : option val → Sink → (exn + bool) * Sink)
    (vs : list val) (k : Sink) : bool :=
  match vs with
  | [] => true
  | v :: vs' =>
      match push (Some v) k with
      | (inr true, k') => accepts push vs' k'
      | _ => false
      end
  end.

(** The exception [x], raised when the consumer was in state [k], has
    surfaced between the adapter states [before] and [after]: one ['error']
    event more, carrying [x], was emitted to the consumer, and what the
    listeners threw in turn, if anything, went into the promise of the
    loop. *)
Definition surfaced {Sink} (emit_error : exn → Sink → option exn * Sink)
    (x : exn) (k : Sink) (before after : @NodeReadable Sink) : Prop :=
  errors after = errors before ++ [x] ∧
  base after = snd (emit_error x k) ∧
  _doneReadingPromise after =
    match fst (emit_error x k) with
    | None => Fulfilled
    | Some x' => Rejected x'
    end.

(** An idle adapter on the stream and the reader at location 1, whose
    consumer has recorded nothing yet. *)
Definition idle_adapter : @NodeReadable (list (option val)) :=
  MkNodeReadable 1%positive 1%positive false false Fulfilled [] [].

(** A consumer of text: it records strings and the end of the stream, and
    throws on anything else. *)
Definition text_push (v : option val) (k : list (option val))
    : (exn + bool) * list (option val) :=
  match v with
  | Some (VStr _) | None => (inr true, k ++ [v])
  | Some _ => (inl TypeError, k)
  end.

(** A consumer without a listener for ['error']: [emit] throws the error. *)
Definition unheard (e : exn) (k : list (option val))
    : option exn * list (option val) := (Some e, k).

(** A reader, at location 1, over a stream that will deliver "ab", a byte
    array and "cd". *)
Definition mixed_chunks : world :=
  after (Reader_new (IStream 1%positive))
        (web_stream [VStr "ab"; VBytes [x01%byte]; VStr "cd"] Closed).

(** A reader, at location 1, of the string "ab"; and the same reader once
    the string has been read. *)
Definition string_reader : world :=
  after (Reader_new (IScalar (SStr "ab"))) empty_world.
Definition exhausted_string_reader : world :=
  after (read 1%positive) string_reader.

(** Peek at an exhausted reader, then release it. *)
Definition peek_then_release (length : nat) : M unit :=
  let* _ := peekBytes 1%positive length in
  releaseLock 1%positive.

(** ** Notions for the further properties *)


(** The text ahead of a reader, as [readLine] sees it: every chunk coerced
    to a string. *)
Definition text_ahead (l : list val) : string := join (to_text <$> l).

(** A line, or [undefined] when there is no text. *)
Definition line_or_undefined (t : string) : val :=
  match t with
  | EmptyString => VUndef
  | _ => VStr t
  end.

(** How many chunks of [vs] the loop of the adapter takes from the reader
    when the consumer starts from [k]: those up to and including the first
    one that the consumer does not answer by asking for more. *)
Fixpoint taken {Sink} (push : option val → Sink → (exn + bool) * Sink)
    (vs : list val) (k : Sink) : nat :=
  match vs with
  | [] => 0
  | v :: vs' =>
      match push (Some v) k with
      | (inr true, k') => S (taken push vs' k')
      | _ => 1
      end
  end.




(** A reader, at location 1, over a stream that will deliver [four_chunks]. *)
Definition four_chunks_reader : world :=
  after (Reader_new (IStream 1%positive)) (web_stream four_chunks Closed).

(** * Reasoning about readers *)

Ltac run := unfold bind, ret, get, modify, lift, throw, this_reader in *; simpl in *.

Lemma array_contents_insert a l f w :
  array_contents a (set_arrays (λ m, <[a := l]> (f m)) w) = l.
Proof. unfold array_contents; simpl. by rewrite lookup_insert_eq. Qed.

Lemma array_contents_set a l w :
  array_contents a (set_arrays <[a := l]> w) = l.
Proof. unfold array_contents; simpl. by rewrite lookup_insert_eq. Qed.

Lemma read_buffered this w r a v rest :
  readers w !! this = Some r →
  r_externalBuffer r = Some a →
  array_contents a w = v :: rest →
  read this w = Ok (Result false v) (set_arrays <[a := rest]> w).
Proof.
  intros Hr Ha Hl. unfold read. run. rewrite Hr; simpl. rewrite Ha; simpl.
  by rewrite Hl.
Qed.

Lemma read_unbuffered this w :
  buffered this w = [] → read this w = _read this w.
Proof.
  unfold buffered, read. run.
  destruct (readers w !! this) as [r|] eqn:E; simpl.
  - destruct (r_externalBuffer r) as [a|]; simpl; [|done]. by intros ->.
  - intros _. unfold _read. run. by rewrite E.
Qed.

Lemma buffered_frame this w w' :
  readers w' = readers w → arrays w' = arrays w →
  buffered this w' = buffered this w.
Proof. unfold buffered, array_contents. by intros -> ->. Qed.

Lemma source_ahead_frame src w w' :
  streams w' = streams w → doneReadingSet w' = doneReadingSet w →
  source_ahead src w' = source_ahead src w.
Proof.
  unfold source_ahead, doneReadingSet_has. by intros -> ->.
Qed.

Lemma source_end_frame src w w' :
  streams w' = streams w → source_end src w' = source_end src w.
Proof. unfold source_end. by intros ->. Qed.

Lemma view_Some this w b s e :
  view this w = Some (b, s, e) →
  ∃ r, readers w !! this = Some r ∧
       buffered this w = b ∧
       source_ahead (r_source r) w = s ∧
       source_end (r_source r) w = e.
Proof.
  unfold view. destruct (readers w !! this) as [r|]; [|done].
  intros [= <- <- <-]. eauto.
Qed.

Lemma view_intro this w r :
  readers w !! this = Some r →
  view this w =
    Some (buffered this w, source_ahead (r_source r) w, source_end (r_source r) w).
Proof. intros Hr. unfold view. by rewrite Hr. Qed.

Lemma view_ahead this w b s e :
  view this w = Some (b, s, e) → ahead this w = b ++ s.
Proof.
  intros (r & Hr & <- & <- & _)%view_Some. unfold ahead. by rewrite Hr.
Qed.

(** Reading with a chunk in the buffer: it comes out, the source is left
    alone. *)
Lemma view_read_buffer this w v b s e :
  view this w = Some (v :: b, s, e) →
  ∃ w', read this w = Ok (Result false v) w' ∧ view this w' = Some (b, s, e).
Proof.
  intros (r & Hr & Hb & Hs & He)%view_Some.
  unfold buffered in Hb. rewrite Hr in Hb.
  destruct (r_externalBuffer r) as [a|] eqn:Ha; [|done].
  erewrite read_buffered by done.
  eexists; split; [done|].
  erewrite view_intro by (simpl; exact Hr).
  unfold buffered; simpl. rewrite Hr, Ha, array_contents_set.
  rewrite (source_ahead_frame _ w), (source_end_frame _ w) by done.
  by subst.
Qed.

(** Reading with an empty buffer and a chunk left in the source. *)
Lemma view_read_source this w v s e :
  view this w = Some ([], v :: s, e) →
  ∃ w', read this w = Ok (Result false v) w' ∧ view this w' = Some ([], s, e).
Proof.
  intros (r & Hr & Hb & Hl & He)%view_Some.
  rewrite read_unbuffered by done.
  unfold _read. run. rewrite Hr; simpl.
  destruct (r_source r) as [s0 h | x d] eqn:Hs; simpl in *.
  - unfold handle_read; simpl.
    destruct (streams w !! s0) as [st|] eqn:Hst; [|done].
    destruct (holds st h) eqn:Hh; [|done]. rewrite Hl.
    eexists; split; [done|].
    erewrite view_intro by (simpl; exact Hr).
    rewrite Hs; simpl. rewrite lookup_insert_eq.
    unfold holds in *; simpl. rewrite Hh.
    rewrite (buffered_frame this w) by done. rewrite Hb. by subst e.
  - change (doneReadingSet_has x (emit_event (EvPull this) w))
      with (doneReadingSet_has x w).
    destruct (d || doneReadingSet_has x w) eqn:Hd; [done|].
    injection Hl as <- <-.
    eexists; split; [done|].
    erewrite view_intro by (simpl; apply lookup_insert_eq). simpl.
    unfold buffered in *; simpl. rewrite lookup_insert_eq; simpl.
    rewrite Hr in Hb.
    unfold array_contents in *; simpl. rewrite Hb. by subst e.
Qed.

(** Reading when nothing is ahead: whatever the source does at its end. *)
Lemma view_read_done this w :
  view this w = Some ([], [], EndDone) →
  read this w = Ok (Result true VUndef) (emit_event (EvPull this) w).
Proof.
  intros (r & Hr & Hb & Hs & He)%view_Some.
  rewrite read_unbuffered by done. unfold _read. run. rewrite Hr; simpl.
  destruct (r_source r) as [s h | x d]; simpl in *.
  - unfold handle_read; simpl.
    destruct (streams w !! s) as [st|]; [|done].
    destruct (holds st h); [|done]. rewrite Hs.
    by destruct (ends st).
  - change (doneReadingSet_has x (emit_event (EvPull this) w))
      with (doneReadingSet_has x w).
    by destruct (d || doneReadingSet_has x w).
Qed.

Lemma view_read_throw this w e :
  view this w = Some ([], [], EndThrow e) →
  read this w = Throw e (emit_event (EvPull this) w).
Proof.
  intros (r & Hr & Hb & Hs & He)%view_Some.
  rewrite read_unbuffered by done. unfold _read. run. rewrite Hr; simpl.
  destruct (r_source r) as [s h | x d]; simpl in *; [|done].
  unfold handle_read; simpl.
  destruct (streams w !! s) as [st|]; [|by injection He as ->].
  destruct (holds st h); [|by injection He as ->]. rewrite Hs.
  destruct (ends st); [done|]. by injection He as ->.
Qed.

Lemma view_read_none this w :
  view this w = None → read this w = Throw TypeError w.
Proof.
  unfold view, read. run. by destruct (readers w !! this).
Qed.

Lemma view_emit_event this ev w :
  view this (emit_event ev w) = view this w.
Proof. done. Qed.

(** Pushing back: the kept values go in front of the buffer. *)
Lemma view_unshift this w b s e values :
  view this w = Some (b, s, e) →
  ∃ w', unshift this values w = Ok tt w' ∧
        view this w' = Some (List.filter kept values ++ b, s, e).
Proof.
  intros (r & Hr & Hb & Hs & He)%view_Some.
  unfold unshift. run. rewrite Hr; simpl.
  destruct (r_externalBuffer r) as [a|] eqn:Ha; simpl.
  - eexists; split; [done|].
    erewrite view_intro by (simpl; exact Hr).
    unfold buffered in *; simpl. rewrite Hr, Ha in *.
    rewrite array_contents_set.
    rewrite (source_ahead_frame _ w), (source_end_frame _ w) by done.
    by subst.
  - eexists; split; [done|].
    erewrite view_intro by (simpl; apply lookup_insert_eq). simpl.
    unfold buffered in *; simpl. rewrite lookup_insert_eq; simpl.
    rewrite Hr, Ha in Hb. simpl in Hb.
    unfold array_contents at 1; simpl. rewrite lookup_insert_eq; simpl.
    unfold array_contents; simpl. rewrite lookup_insert_eq; simpl.
    by subst.
Qed.

Lemma view_read_ahead this w b s e v l :
  view this w = Some (b, s, e) → b ++ s = v :: l →
  ∃ w', read this w = Ok (Result false v) w' ∧
        view this w' = Some (drop 1 b, drop (1 - length b) s, e).
Proof.
  intros Hv Hl. destruct b as [|v' b]; simpl in *.
  - subst s. apply view_read_source in Hv as (w' & ? & ?). eauto.
  - injection Hl as -> <-. apply view_read_buffer in Hv as (w' & ? & ?).
    rewrite drop_0. eauto.
Qed.

Lemma bind_Ok {A B} (m : M A) (k : A → M B) w a w' :
  m w = Ok a w' → bind m k w = k a w'.
Proof. unfold bind. by intros ->. Qed.

Lemma bind_Throw {A B} (m : M A) (k : A → M B) w e w' :
  m w = Throw e w' → bind m k w = Throw e w'.
Proof. unfold bind. by intros ->. Qed.

(** ** The loops, on views *)

Lemma agrees_took {A} (o : outcome A) p this b s e :
  agrees o p this (drop 1 b) (drop (1 - length b) s) e →
  agrees o (took p) this b s e.
Proof.
  destruct p as [a k pushed|x]; simpl; [|done].
  intros (w' & -> & Hv). eexists; split; [done|].
  rewrite Hv, !drop_drop, length_drop.
  by replace (1 - length b + (k - (length b - 1))) with (S k - length b)
    by (destruct b; simpl; lia).
Qed.

Lemma readBytes_loop_on this length l :
  ∀ fuel b s e w buffer bufferLength,
    view this w = Some (b, s, e) → b ++ s = l → List.length l < fuel →
    agrees (readBytes_loop fuel this length buffer bufferLength w)
           (readBytes_on length buffer bufferLength l e) this b s e.
Proof.
  induction l as [|v l IH]; intros fuel b s e w buffer bufferLength Hv Hl Hf;
    (destruct fuel as [|fuel]; [simpl in Hf; lia|]).
  - apply app_eq_nil in Hl as [-> ->]. cbn [readBytes_loop readBytes_on].
    destruct e as [|x].
    + erewrite bind_Ok by (by apply view_read_done). simpl.
      destruct buffer as [|c buffer].
      * eexists; split; [done|]. by rewrite view_emit_event.
      * destruct (concat (c :: buffer)); simpl; eexists; split; try done.
    + erewrite bind_Throw by (by apply view_read_throw). by eexists.
  - destruct (view_read_ahead _ _ _ _ _ _ _ Hv Hl) as (w1 & Hr & Hv1).
    cbn [readBytes_loop readBytes_on].
    erewrite bind_Ok by exact Hr. simpl.
    destruct (length_of v) as [x|n]; simpl; [by eexists|].
    unfold bind at 1; simpl.
    destruct (length <=? bufferLength + n) eqn:Hle.
    + destruct (concat (buffer ++ [v])) as [x|c]; simpl; [by eexists|].
      unfold bind at 1; simpl.
      destruct (slice c length None) as [x|rest]; simpl; [by eexists|].
      destruct (view_unshift _ _ _ _ _ [rest] Hv1) as (w2 & Hu & Hv2).
      unfold bind at 1; simpl. erewrite bind_Ok by exact Hu.
      destruct (slice c 0 (Some length)) as [x|first]; simpl; [by eexists|].
      eexists; split; [done|]. exact Hv2.
    + apply agrees_took. apply IH; [done| |simpl in Hf; lia].
      destruct b; simpl in *; [by subst|]. rewrite !drop_0. congruence.
Qed.

Lemma readBytes_on_view this length w b s e :
  view this w = Some (b, s, e) →
  agrees (readBytes this length w) (readBytes_on length [] 0 (b ++ s) e) this b s e.
Proof.
  intros Hv. unfold readBytes. erewrite bind_Ok by reflexivity.
  apply readBytes_loop_on; [done..|].
  unfold enough_fuel. erewrite view_ahead by done. lia.
Qed.

(** ** Chunks: sizes and contents *)

Lemma length_of_chunk v : is_chunk v → length_of v = inr (size v).
Proof. by destruct v. Qed.

Lemma length_of_inr v n : length_of v = inr n → is_chunk v ∧ size v = n.
Proof. destruct v; simpl; [done|intros [= <-]..]; by split. Qed.

Lemma kept_true v : kept v = true ↔ is_chunk v ∧ 0 < size v.
Proof.
  unfold is_chunk. destruct v as [|s|b]; simpl.
  - split; [done|]. by intros [? _].
  - destruct s; simpl; split; try done; try lia. intros _. split; [done|lia].
  - destruct b; simpl; split; try done; try lia. intros _. split; [done|lia].
Qed.

Lemma kept_false v : kept v = false → units v = [].
Proof. destruct v as [|[|??]|[|??]]; simpl; done. Qed.

Lemma length_units v : length (units v) = size v.
Proof.
  destruct v as [|s|b]; simpl; [done| |by rewrite length_fmap].
  induction s; simpl; by f_equal.
Qed.

Lemma total_length_app l1 l2 :
  total_length (l1 ++ l2) = total_length l1 + total_length l2.
Proof. induction l1; simpl; lia. Qed.

Lemma content_app l1 l2 : content (l1 ++ l2) = content l1 ++ content l2.
Proof. apply bind_app. Qed.

Lemma content_filter_kept l : content (List.filter kept l) = content l.
Proof.
  induction l as [|v l IH]; [done|]. simpl.
  destruct (kept v) eqn:Hk; simpl; rewrite IH; [done|].
  by rewrite (kept_false v).
Qed.

Lemma length_content l : length (content l) = total_length l.
Proof.
  induction l as [|v l IH]; [done|]. simpl.
  by rewrite length_app, length_units, IH.
Qed.

(** *** Strings *)

Lemma length_append s1 s2 :
  String.length (str_append s1 s2) = String.length s1 + String.length s2.
Proof. induction s1; simpl; by f_equal. Qed.

Lemma chars_append s1 s2 : chars (str_append s1 s2) = chars s1 ++ chars s2.
Proof. induction s1; simpl; by f_equal. Qed.

Lemma append_empty_r s : str_append s EmptyString = s.
Proof. induction s; simpl; by f_equal. Qed.

Lemma chars_str_take n s : chars (str_take n s) = take n (chars s).
Proof. revert s; induction n; intros [|c s]; simpl; try done. by f_equal. Qed.

Lemma chars_str_drop n s : chars (str_drop n s) = drop n (chars s).
Proof. revert s; induction n; intros [|c s]; simpl; try done. Qed.

Lemma chars_inj s1 s2 : chars s1 = chars s2 → s1 = s2.
Proof.
  revert s2; induction s1; intros [|??]; simpl; try done.
  intros [= -> ?]. f_equal. auto.
Qed.

Lemma length_chars s : length (chars s) = String.length s.
Proof. induction s; simpl; by f_equal. Qed.

(** *** concat *)

Lemma join_strings l :
  forallb isString l = true →
  size (VStr (join (text_of <$> l))) = total_length l ∧
  units (VStr (join (text_of <$> l))) = content l.
Proof.
  induction l as [|v l IH]; [done|]. simpl.
  intros [Hv Hl]%andb_prop. destruct (IH Hl) as [IH1 IH2].
  destruct v; try done. unfold join in *. simpl in *.
  change (list_fmap val string text_of l) with (text_of <$> l).
  by rewrite length_append, chars_append, IH1, IH2.
Qed.

Lemma concat_bytes l :
  forallb isUint8Array l = true →
  size (VBytes (l ≫= bytes_of)) = total_length l ∧
  units (VBytes (l ≫= bytes_of)) = content l.
Proof.
  induction l as [|v l IH]; [done|].
  intros H. simpl in H. apply andb_prop in H as [Hv Hl].
  destruct (IH Hl) as [IH1 IH2].
  destruct v; try done. rewrite bind_cons. simpl in *.
  by rewrite length_app, fmap_app, IH1, IH2.
Qed.

(** A single chunk concatenates to itself. *)
Lemma concat_singleton v : is_chunk v → concat [v] = inr v.
Proof.
  destruct v as [|s|b]; [done| |done]. intros _. simpl.
  by rewrite append_empty_r.
Qed.

(** A successful concatenation of chunks is a chunk with their total size
    and their content. *)
Lemma concat_inr l c :
  l ≠ [] → Forall is_chunk l → concat l = inr c →
  is_chunk c ∧ size c = total_length l ∧ units c = content l.
Proof.
  intros Hne Hl. unfold concat.
  destruct l as [|v l]; [done|].
  assert (concatUint8Array (v :: l) = inr c →
          is_chunk c ∧ size c = total_length (v :: l) ∧ units c = content (v :: l))
    as Hu.
  { unfold concatUint8Array. destruct l as [|v' l].
    - intros [= <-]. apply Forall_cons in Hl as [Hv _].
      simpl. rewrite app_nil_r. split; [done|]. split; [lia|done].
    - destruct (forallb isUint8Array (v :: v' :: l)) eqn:Hbs; [|done].
      intros [= <-]. split; [done|]. exact (concat_bytes (v :: v' :: l) Hbs). }
  destruct v as [|s|b]; [done| |done].
  destruct (forallb isString (VStr s :: l)) eqn:Hss; [|done].
  intros [= <-]. split; [done|]. exact (join_strings (VStr s :: l) Hss).
Qed.

(** *** slice *)

Lemma slice_chunk c n :
  is_chunk c →
  ∃ first rest,
    slice c 0 (Some n) = inr first ∧ slice c n None = inr rest ∧
    is_chunk first ∧ is_chunk rest ∧
    units first = take n (units c) ∧ units rest = drop n (units c).
Proof.
  destruct c as [|s|b]; [done|..]; intros _; simpl.
  - eexists _, _; repeat split; try done; simpl.
    + by rewrite Nat.sub_0_r, chars_str_take.
    + by rewrite chars_str_drop.
  - eexists _, _; repeat split; try done; simpl.
    + by rewrite Nat.sub_0_r, drop_0, fmap_take.
    + by rewrite fmap_drop.
Qed.

Lemma str_take_ge n s : String.length s ≤ n → str_take n s = s.
Proof.
  revert s; induction n; intros [|c s]; simpl; try done; [lia|].
  intros ?. f_equal. apply IHn. lia.
Qed.

Lemma slice_from_0 c : is_chunk c → slice c 0 None = inr c.
Proof. by destruct c. Qed.

Lemma slice_all c n : is_chunk c → size c ≤ n → slice c 0 (Some n) = inr c.
Proof.
  destruct c as [|s|b]; [done|..]; intros _ Hn; simpl in *.
  - by rewrite Nat.sub_0_r, str_take_ge.
  - by rewrite Nat.sub_0_r, drop_0, take_ge.
Qed.

Lemma slice_first_size c n first :
  slice c 0 (Some n) = inr first → size first = n `min` size c.
Proof.
  intros Hs. assert (is_chunk c) as Hc by (by destruct c).
  destruct (slice_chunk c n Hc) as (f & r & Hf & _ & _ & _ & Hu & _).
  rewrite Hs in Hf. injection Hf as <-.
  by rewrite <- !length_units, Hu, length_take.
Qed.

(** ** What [readBytes] returns *)

Lemma took_answer_of {A} (r : exn + A) k pushed :
  took (answer_of r k pushed) = answer_of r (S k) pushed.
Proof. by destruct r. Qed.

(** Termination before [length] units have accumulated. *)
Lemma readBytes_on_short length l :
  ∀ buffer bufferLength,
    Forall is_chunk l →
    l = [] ∨ bufferLength + total_length l < length →
    readBytes_on length buffer bufferLength l EndDone =
      match buffer ++ l with
      | [] => Returns VUndef 0 []
      | acc => answer_of (concat acc) (List.length l) []
      end.
Proof.
  induction l as [|v l IH]; intros buffer bufferLength Hl Hn.
  - simpl. rewrite app_nil_r. by destruct buffer.
  - destruct Hn as [|Hn]; [done|]. simpl in Hn.
    apply Forall_cons in Hl as [Hv Hl]. simpl.
    rewrite length_of_chunk by done.
    destruct (Nat.leb_spec length (bufferLength + size v)) as [|_]; [lia|].
    rewrite IH; [|done|destruct l; [by left|right; lia]].
    rewrite <- app_assoc. simpl.
    destruct (buffer ++ v :: l) eqn:E; [by destruct buffer|].
    apply took_answer_of.
Qed.

(** Enough units accumulate with chunk [c], and not before. *)
Lemma readBytes_on_enough length pre c post e :
  ∀ buffer bufferLength,
    Forall is_chunk (pre ++ [c]) →
    pre = [] ∨ bufferLength + total_length pre < length →
    length ≤ bufferLength + total_length (pre ++ [c]) →
    readBytes_on length buffer bufferLength (pre ++ c :: post) e =
      match concat (buffer ++ pre ++ [c]) with
      | inl x => Raises x
      | inr whole =>
          match slice whole length None with
          | inl x => Raises x
          | inr rest =>
              answer_of (slice whole 0 (Some length)) (S (List.length pre))
                        (List.filter kept [rest])
          end
      end.
Proof.
  induction pre as [|v pre IH]; intros buffer bufferLength Hl Hpre Hn.
  - simpl in *. apply Forall_cons in Hl as [Hc _].
    rewrite length_of_chunk by done.
    destruct (Nat.leb_spec length (bufferLength + size c)) as [_|]; [done|lia].
  - destruct Hpre as [|Hpre]; [done|]. simpl in *.
    apply Forall_cons in Hl as [Hv Hl].
    rewrite length_of_chunk by done.
    destruct (Nat.leb_spec length (bufferLength + size v)) as [|_]; [lia|].
    rewrite IH; [|done|destruct pre; [by left|right; simpl in *; lia]|lia].
    rewrite <- app_assoc. simpl.
    destruct (concat (buffer ++ v :: pre ++ [c])); [done|].
    destruct (slice _ length None); [done|].
    apply took_answer_of.
Qed.

(** Conversely, whenever [readBytes] returns it is in one of these two
    ways. *)
Lemma readBytes_on_Returns length l :
  ∀ buffer bufferLength e v k pushed,
    readBytes_on length buffer bufferLength l e = Returns v k pushed →
    (e = EndDone ∧ k = List.length l ∧ pushed = [] ∧ Forall is_chunk l ∧
     (l = [] ∨ bufferLength + total_length l < length) ∧
     match buffer ++ l with
     | [] => v = VUndef
     | acc => concat acc = inr v
     end)
    ∨
    (∃ whole rest,
       0 < k ≤ List.length l ∧ Forall is_chunk (take k l) ∧
       length ≤ bufferLength + total_length (take k l) ∧
       concat (buffer ++ take k l) = inr whole ∧
       slice whole length None = inr rest ∧
       slice whole 0 (Some length) = inr v ∧
       pushed = List.filter kept [rest]).
Proof.
  induction l as [|v0 l IH]; intros buffer bufferLength e v k pushed; simpl.
  - destruct e as [|x]; [|done]. rewrite app_nil_r.
    destruct buffer as [|c buffer].
    + intros [= <- <- <-]. left. repeat split; auto.
    + destruct (concat (c :: buffer)) as [x|c'] eqn:Hc; [done|].
      intros [= <- <- <-]. left. repeat split; auto.
  - destruct (length_of v0) as [x|n] eqn:Hlen; [done|].
    apply length_of_inr in Hlen as [Hv0 <-].
    destruct (Nat.leb_spec length (bufferLength + size v0)) as [Hle|Hlt].
    + destruct (concat (buffer ++ [v0])) as [x|whole] eqn:Hc; [done|].
      destruct (slice whole length None) as [x|rest] eqn:Hr; [done|].
      destruct (slice whole 0 (Some length)) as [x|first] eqn:Hf; [done|].
      intros [= <- <- <-]. right. exists whole, rest. simpl.
      rewrite take_0. repeat split; auto; try lia.
    + destruct (readBytes_on length (buffer ++ [v0]) (bufferLength + size v0) l e)
        as [v' k' pushed'|x] eqn:Hrec; [|done].
      intros [= <- <- <-].
      apply IH in Hrec as [(-> & -> & -> & Hl & Hn & Hacc)|
                           (whole & rest & Hk & Hl & Hn & Hc & Hr & Hf & ->)].
      * left. repeat split; auto.
        -- right. destruct Hn as [->|]; simpl; lia.
        -- rewrite <- app_assoc in Hacc. simpl in Hacc.
           by destruct (buffer ++ v0 :: l) eqn:E; [destruct buffer|].
      * right. exists whole, rest. simpl.
        rewrite <- app_assoc in Hc. simpl in Hc.
        repeat split; auto; try lia.
Qed.

Global Arguments concat : simpl never.
Global Arguments slice : simpl never.

Lemma kept_nonempty v : nonempty v → kept v = true.
Proof. intros. by apply kept_true. Qed.

Lemma kept_empty v : size v = 0 → kept v = false.
Proof.
  intros Hs. destruct (kept v) eqn:Hk; [|done].
  apply kept_true in Hk as [_ ?]. lia.
Qed.

Lemma filter_kept_nonempty v : nonempty v → List.filter kept [v] = [v].
Proof. intros Hv. simpl. by rewrite kept_nonempty. Qed.

Lemma filter_kept_empty v : size v = 0 → List.filter kept [v] = [].
Proof. intros Hv. simpl. by rewrite kept_empty. Qed.

Lemma total_length_nonempty l :
  l ≠ [] → Forall nonempty l → 0 < total_length l.
Proof.
  destruct l as [|v l]; [done|]. intros _ [[_ ?] _]%Forall_cons. simpl. lia.
Qed.

(** ** Peeking and reading again, on views *)

(** After [readBytes] returned [v] and [v] was pushed back, [readBytes]
    returns [v] again. *)
Lemma readBytes_on_again length l e v k pushed :
  Forall nonempty l →
  readBytes_on length [] 0 l e = Returns v k pushed →
  ∃ k' pushed',
    readBytes_on length [] 0 (List.filter kept [v] ++ pushed ++ drop k l) e =
      Returns v k' pushed'.
Proof.
  intros Hl Hret.
  assert (Forall is_chunk l) as Hlc by (eapply Forall_impl; [done|by intros ? []]).
  apply readBytes_on_Returns in Hret
    as [(-> & -> & -> & Hc & Hn & Hacc)|
        (whole & rest & Hk & Hc & Hn & Hw & Hr & Hf & ->)]; cbn [app] in *.
  - rewrite drop_all. destruct l as [|c l].
    + subst v. simpl. eauto.
    + destruct Hn as [|Hn]; [done|].
      apply concat_inr in Hacc as (Hv & Hsz & _); [|done..].
      rewrite filter_kept_nonempty.
      2:{ split; [done|]. rewrite Hsz. by apply total_length_nonempty. }
      pose proof (readBytes_on_short length [v] [] 0) as Hs.
      cbn [app] in *. rewrite Hs.
      * rewrite concat_singleton by done. simpl. eauto.
      * by apply Forall_singleton.
      * right. simpl. lia.
  - assert (take k l ≠ []) as Hne.
    { destruct l, k; simpl in *; try done; lia. }
    assert (Forall nonempty (take k l)) as Hl' by (by apply Forall_take).
    apply concat_inr in Hw as (Hwc & Hsz & _); [|done..].
    pose proof (total_length_nonempty _ Hne Hl') as Hpos.
    pose proof (slice_first_size _ _ _ Hf) as Hvs.
    destruct (slice_chunk whole length Hwc) as (f & r & Hf' & Hr' & Hfc & _).
    rewrite Hf in Hf'. injection Hf' as <-.
    destruct length as [|n].
    + rewrite slice_from_0 in Hr by done. injection Hr as <-.
      rewrite (filter_kept_empty v) by lia.
      rewrite (filter_kept_nonempty whole) by (split; [done|lia]).
      pose proof (readBytes_on_enough 0 [] whole (drop k l) e [] 0) as He.
      cbn [app] in *. rewrite He.
      * rewrite concat_singleton, slice_from_0, Hf by done. simpl. eauto.
      * by apply Forall_singleton.
      * by left.
      * lia.
    + rewrite (filter_kept_nonempty v) by (split; [done|lia]).
      destruct (slice_chunk v (S n) Hfc) as (f2 & r2 & Hf2 & Hr2 & _).
      pose proof (readBytes_on_enough (S n) [] v
                    (List.filter kept [rest] ++ drop k l) e [] 0) as He.
      cbn [app] in *. rewrite He.
      * rewrite concat_singleton, Hr2, slice_all by (done || lia). simpl. eauto.
      * by apply Forall_singleton.
      * by left.
      * simpl. lia.
Qed.

(** Pushing the result of [readBytes] back restores the units ahead. *)
Lemma readBytes_on_content length l e v k pushed :
  readBytes_on length [] 0 l e = Returns v k pushed →
  content (List.filter kept [v] ++ pushed ++ drop k l) = content l.
Proof.
  intros Hret.
  apply readBytes_on_Returns in Hret
    as [(-> & -> & -> & Hc & Hn & Hacc)|
        (whole & rest & Hk & Hc & Hn & Hw & Hr & Hf & ->)]; cbn [app] in *.
  - rewrite drop_all, app_nil_r, content_filter_kept. destruct l as [|c l].
    + by subst v.
    + apply concat_inr in Hacc as (_ & _ & Hu); [|done..].
      unfold content at 1. simpl. by rewrite app_nil_r.
  - assert (take k l ≠ []) as Hne.
    { destruct l, k; simpl in *; try done; lia. }
    apply concat_inr in Hw as (Hwc & _ & Hu); [|done..].
    destruct (slice_chunk whole length Hwc)
      as (f & r & Hf' & Hr' & _ & _ & Huf & Hur).
    rewrite Hf in Hf'. injection Hf' as <-.
    rewrite Hr in Hr'. injection Hr' as <-.
    rewrite !content_app, !content_filter_kept.
    unfold content at 1 2. simpl. rewrite !app_nil_r, Huf, Hur, app_assoc.
    rewrite take_drop, Hu, <- content_app. by rewrite take_drop.
Qed.

(** ** Every method comes back *)

Lemma unshift_cases this values w :
  (∃ w', unshift this values w = Ok tt w') ∨
  (∃ w', unshift this values w = Throw TypeError w').
Proof.
  destruct (view this w) as [[[b s] e]|] eqn:Hv.
  - destruct (view_unshift _ _ _ _ _ values Hv) as (w' & -> & _). eauto.
  - right. unfold view in Hv. unfold unshift. run.
    destruct (readers w !! this); [done|]. eauto.
Qed.

Lemma read_cases this w :
  (∃ e w', read this w = Throw e w') ∨
  (∃ w', read this w = Ok (Result true VUndef) w') ∨
  (∃ v w', read this w = Ok (Result false v) w' ∧
           length (ahead this w') < length (ahead this w)).
Proof.
  destruct (view this w) as [[[b s] e]|] eqn:Hv.
  - destruct (b ++ s) as [|v l] eqn:Hl.
    + apply app_eq_nil in Hl as [-> ->]. destruct e as [|x].
      * right; left. rewrite view_read_done by done. eauto.
      * left. rewrite (view_read_throw _ _ x) by done. eauto.
    + right; right.
      destruct (view_read_ahead _ _ _ _ _ _ _ Hv Hl) as (w' & -> & Hv').
      eexists _, _; split; [done|].
      rewrite (view_ahead _ _ _ _ _ Hv), (view_ahead _ _ _ _ _ Hv').
      rewrite !length_app, !length_drop.
      apply (f_equal length) in Hl. rewrite length_app in Hl. simpl in Hl.
      destruct b; simpl in *; lia.
  - left. rewrite view_read_none by done. eauto.
Qed.

Lemma readLine_loop_returns this fuel :
  ∀ w buffer, length (ahead this w) < fuel →
              returns (readLine_loop fuel this buffer w).
Proof.
  unfold returns.
  induction fuel as [|fuel IH]; intros w buffer Hf; [lia|].
  cbn [readLine_loop].
  destruct (read_cases this w) as [(e & w' & Hr)|[(w' & Hr)|(v & w' & Hr & Hlt)]].
  - by erewrite bind_Throw.
  - erewrite bind_Ok by done. simpl.
    destruct buffer; [done|]. by destruct (concat _).
  - erewrite bind_Ok by done. simpl.
    set (value := to_text v). set (i := (indexOf newline value + 1)%Z).
    destruct (i =? 0)%Z; simpl.
    + unfold bind at 1. simpl.
      destruct (i =? _)%Z; simpl; apply IH; lia.
    + unfold bind at 1 2. simpl.
      destruct (concat _) as [x|line]; simpl; [done|].
      destruct (truthy line); [|destruct (i =? _)%Z; apply IH; lia].
      match goal with |- bind (unshift ?t ?vs) _ ?w ≠ _ =>
        destruct (unshift_cases t vs w) as [(w2 & Hu)|(w2 & Hu)] end.
      * by erewrite bind_Ok.
      * by erewrite bind_Throw.
Qed.

Lemma readBytes_loop_returns this length fuel :
  ∀ w buffer bufferLength,
    List.length (ahead this w) < fuel →
    returns (readBytes_loop fuel this length buffer bufferLength w).
Proof.
  unfold returns.
  induction fuel as [|fuel IH]; intros w buffer bufferLength Hf; [lia|].
  cbn [readBytes_loop].
  destruct (read_cases this w) as [(e & w' & Hr)|[(w' & Hr)|(v & w' & Hr & Hlt)]].
  - by erewrite bind_Throw.
  - erewrite bind_Ok by done. simpl.
    destruct buffer; [done|]. by destruct (concat _).
  - erewrite bind_Ok by done. simpl.
    unfold bind at 1. destruct (length_of v) as [x|n]; simpl; [done|].
    destruct (length <=? bufferLength + n); [|apply IH; lia].
    unfold bind at 1. destruct (concat _) as [x|c]; simpl; [done|].
    unfold bind at 1. destruct (slice c length None) as [x|rest]; simpl; [done|].
    destruct (unshift_cases this [rest] w') as [(w2 & Hu)|(w2 & Hu)].
    + erewrite bind_Ok by done. by destruct (slice c 0 _).
    + by erewrite bind_Throw.
Qed.

Lemma readToEnd_loop_returns this fuel :
  ∀ w result, length (ahead this w) < fuel →
              returns (readToEnd_loop fuel this result w).
Proof.
  unfold returns.
  induction fuel as [|fuel IH]; intros w result Hf; [lia|].
  cbn [readToEnd_loop].
  destruct (read_cases this w) as [(e & w' & Hr)|[(w' & Hr)|(v & w' & Hr & Hlt)]].
  - by erewrite bind_Throw.
  - erewrite bind_Ok by done. by simpl.
  - erewrite bind_Ok by done. simpl. apply IH. lia.
Qed.

Lemma enough_fuel_enough this w : length (ahead this w) < enough_fuel this w.
Proof. unfold enough_fuel. lia. Qed.

Lemma readLine_returns this w : returns (readLine this w).
Proof.
  unfold readLine. erewrite bind_Ok by reflexivity.
  apply readLine_loop_returns, enough_fuel_enough.
Qed.

Lemma readBytes_returns this length w : returns (readBytes this length w).
Proof.
  unfold readBytes. erewrite bind_Ok by reflexivity.
  apply readBytes_loop_returns, enough_fuel_enough.
Qed.

Lemma readToEnd_returns {A} this (join : list val → exn + A) w :
  returns (readToEnd this join w).
Proof.
  unfold readToEnd. erewrite bind_Ok by reflexivity.
  pose proof (readToEnd_loop_returns this _ w [] (enough_fuel_enough this w)) as H.
  unfold returns, bind in *.
  destruct (readToEnd_loop _ this [] w); [|done..]. unfold lift.
  by destruct (join a).
Qed.

Lemma peekBytes_returns this length w : returns (peekBytes this length w).
Proof.
  pose proof (readBytes_returns this length w) as H.
  unfold peekBytes, returns, bind in *.
  destruct (readBytes this length w) as [v w'| |]; [|done..].
  by destruct (unshift_cases this [v] w') as [(w2 & ->)|(w2 & ->)].
Qed.

(** ** Properties of the store kept by a computation *)

Section preserves.
Context (P : world → Prop).

Lemma preserves_ret {A} (a : A) : preserves P (ret a).
Proof. by intros w Hw. Qed.

Lemma preserves_throw {A} e : preserves P (throw (A:=A) e).
Proof. by intros w Hw. Qed.

Lemma preserves_lift {A} (r : exn + A) : preserves P (lift r).
Proof. destruct r; [apply preserves_throw|apply preserves_ret]. Qed.

Lemma preserves_get {A} (f : world → A) : preserves P (get f).
Proof. by intros w Hw. Qed.

Lemma preserves_this_reader this : preserves P (this_reader this).
Proof. intros w Hw. unfold this_reader. by destruct (readers w !! this). Qed.

Lemma preserves_bind {A B} (m : M A) (k : A → M B) :
  preserves P m → (∀ a, preserves P (k a)) → preserves P (bind m k).
Proof.
  intros Hm Hk w Hw. unfold bind. specialize (Hm w Hw).
  destruct (m w) as [a w'| |]; [|done..]. by apply Hk.
Qed.

Lemma preserves_modify f : (∀ w, P w → P (f w)) → preserves P (modify f).
Proof. intros Hf w Hw. by apply Hf. Qed.
End preserves.

Lemma buffers_ok_frame w w' : arrays w' = arrays w → buffers_ok w → buffers_ok w'.
Proof. unfold buffers_ok. by intros ->. Qed.

Lemma buffers_ok_insert a l w :
  Forall nonempty l → buffers_ok w → buffers_ok (set_arrays <[a := l]> w).
Proof.
  intros Hl Hw a' l'. simpl. rewrite lookup_insert.
  case_decide; [by intros [= <-]|apply Hw].
Qed.

Lemma buffers_ok_contents a w : buffers_ok w → Forall nonempty (array_contents a w).
Proof.
  intros Hw. unfold array_contents.
  destruct (arrays w !! a) eqn:E; simpl; [by eapply Hw|done].
Qed.

Lemma filter_kept_Forall values : Forall nonempty (List.filter kept values).
Proof.
  apply Forall_forall. intros v Hv%list_elem_of_In%filter_In.
  apply kept_true, Hv.
Qed.

Lemma handle_read_preserves s h : preserves buffers_ok (handle_read s h).
Proof.
  intros w Hw. unfold handle_read.
  destruct (streams w !! s) as [st|]; [|done].
  destruct (holds st h); [|done].
  destruct (queue st); [by destruct (ends st)|done].
Qed.

Lemma handle_releaseLock_preserves s h : preserves buffers_ok (handle_releaseLock s h).
Proof.
  intros w Hw. unfold handle_releaseLock.
  destruct (streams w !! s) as [st|]; [|done]. by destruct (holds st h).
Qed.

Lemma getReader_preserves s : preserves buffers_ok (getReader s).
Proof.
  intros w Hw. unfold getReader.
  destruct (streams w !! s) as [st|]; [|done]. by destruct (locked st).
Qed.

Lemma new_object_preserves r : preserves buffers_ok (new_object r).
Proof. by intros w Hw. Qed.

Lemma _read_preserves this : preserves buffers_ok (_read this).
Proof.
  unfold _read. apply preserves_bind; [apply preserves_this_reader|]. intros r.
  apply preserves_bind; [by apply preserves_modify|]. intros _.
  destruct (r_source r) as [s h|x d]; [apply handle_read_preserves|].
  apply preserves_bind; [apply preserves_get|]. intros has.
  destruct (d || has); [apply preserves_ret|].
  apply preserves_bind; [by apply preserves_modify|]. intros _.
  apply preserves_ret.
Qed.

Lemma read_preserves this : preserves buffers_ok (read this).
Proof.
  unfold read. apply preserves_bind; [apply preserves_this_reader|]. intros r.
  destruct (r_externalBuffer r) as [a|]; [|apply _read_preserves].
  intros w Hw. unfold bind at 1, get.
  pose proof (buffers_ok_contents a w Hw) as Hl.
  destruct (array_contents a w) as [|v rest]; [by apply _read_preserves|].
  simpl. apply buffers_ok_insert; [|done]. by apply Forall_cons in Hl as [_ ?].
Qed.

Lemma unshift_preserves this values : preserves buffers_ok (unshift this values).
Proof.
  unfold unshift. apply preserves_bind; [apply preserves_this_reader|]. intros r.
  apply preserves_bind.
  { destruct (r_externalBuffer r); [apply preserves_ret|].
    apply preserves_bind; [by intros w Hw; apply buffers_ok_insert|]. intros a.
    apply preserves_bind; [by apply preserves_modify|]. intros _.
    apply preserves_ret. }
  intros a w Hw. unfold bind, get, modify.
  apply buffers_ok_insert; [|done].
  apply Forall_app. split; [apply filter_kept_Forall|by apply buffers_ok_contents].
Qed.

Lemma _releaseLock_preserves this : preserves buffers_ok (_releaseLock this).
Proof.
  unfold _releaseLock. apply preserves_bind; [apply preserves_this_reader|].
  intros r. apply preserves_bind; [by apply preserves_modify|]. intros _.
  destruct (r_source r) as [s h|x d]; [apply handle_releaseLock_preserves|].
  destruct d; [|apply preserves_ret].
  destruct (scalar_object x); [by apply preserves_modify|apply preserves_ret].
Qed.

Lemma releaseLock_preserves this : preserves buffers_ok (releaseLock this).
Proof.
  unfold releaseLock. apply preserves_bind; [apply preserves_this_reader|].
  intros r. apply preserves_bind; [|intros _; apply _releaseLock_preserves].
  destruct (r_externalBuffer r); [|apply preserves_ret].
  destruct (input_object _); [by apply preserves_modify|apply preserves_throw].
Qed.

Lemma Reader_new_preserves i : preserves buffers_ok (Reader_new i).
Proof.
  unfold Reader_new. apply preserves_bind; [apply preserves_get|].
  intros inherited. apply preserves_bind.
  { destruct inherited as [a|]; [|apply preserves_ret].
    intros w Hw. unfold bind, get, new_array, ret.
    apply buffers_ok_insert; [by apply buffers_ok_contents|done]. }
  intros buffer. destruct i as [s|x]; [|apply new_object_preserves].
  apply preserves_bind; [apply getReader_preserves|].
  intros h. apply new_object_preserves.
Qed.

Lemma readLine_preserves this : preserves buffers_ok (readLine this).
Proof.
  unfold readLine. apply preserves_bind; [apply preserves_get|]. intros fuel.
  generalize (@nil val).
  induction fuel as [|fuel IH]; intros buffer; [by intros w Hw|].
  cbn [readLine_loop]. apply preserves_bind; [apply read_preserves|]. intros r.
  destruct (done r); [destruct buffer; [apply preserves_ret|apply preserves_lift]|].
  apply preserves_bind.
  { destruct (_ =? 0)%Z; [apply preserves_ret|].
    apply preserves_bind; [apply preserves_lift|]. intros; apply preserves_ret. }
  intros found. cbv zeta. destruct (truthy (fst found)); [|apply IH].
  apply preserves_bind; [apply unshift_preserves|]. intros; apply preserves_ret.
Qed.

Lemma readByte_preserves this : preserves buffers_ok (readByte this).
Proof.
  unfold readByte. apply preserves_bind; [apply read_preserves|]. intros r.
  destruct (done r); [apply preserves_ret|].
  apply preserves_bind; [apply preserves_lift|]. intros byte.
  apply preserves_bind; [apply preserves_lift|]. intros rest.
  apply preserves_bind; [apply unshift_preserves|]. intros; apply preserves_ret.
Qed.

Lemma readBytes_preserves this length : preserves buffers_ok (readBytes this length).
Proof.
  unfold readBytes. apply preserves_bind; [apply preserves_get|]. intros fuel.
  generalize (@nil val) 0.
  induction fuel as [|fuel IH]; intros buffer bufferLength; [by intros w Hw|].
  cbn [readBytes_loop]. apply preserves_bind; [apply read_preserves|]. intros r.
  destruct (done r); [destruct buffer; [apply preserves_ret|apply preserves_lift]|].
  apply preserves_bind; [apply preserves_lift|]. intros n.
  destruct (length <=? _); [|apply IH].
  apply preserves_bind; [apply preserves_lift|]. intros c.
  apply preserves_bind; [apply preserves_lift|]. intros rest.
  apply preserves_bind; [apply unshift_preserves|]. intros; apply preserves_lift.
Qed.

Lemma peekBytes_preserves this length : preserves buffers_ok (peekBytes this length).
Proof.
  unfold peekBytes. apply preserves_bind; [apply readBytes_preserves|]. intros v.
  apply preserves_bind; [apply unshift_preserves|]. intros; apply preserves_ret.
Qed.

Lemma readToEnd_preserves {A} this (join : list val → exn + A) :
  preserves buffers_ok (readToEnd this join).
Proof.
  unfold readToEnd. apply preserves_bind; [apply preserves_get|]. intros fuel.
  apply preserves_bind; [|intros; apply preserves_lift].
  generalize (@nil val).
  induction fuel as [|fuel IH]; intros result; [by intros w Hw|].
  cbn [readToEnd_loop]. apply preserves_bind; [apply read_preserves|]. intros r.
  destruct (done r); [apply preserves_ret|apply IH].
Qed.

Lemma total_bind {A B} (m : M A) (k : A → M B) :
  total m → (∀ a, total (k a)) → total (bind m k).
Proof.
  intros Hm Hk w. unfold returns, bind. specialize (Hm w).
  destruct (m w); [apply Hk|done..].
Qed.

Lemma total_ret {A} (a : A) : total (ret a).
Proof. by intros w. Qed.

Lemma total_lift {A} (r : exn + A) : total (lift r).
Proof. by destruct r; intros w. Qed.

Lemma total_read this : total (read this).
Proof.
  intros w. unfold returns.
  by destruct (read_cases this w) as [(?&?&->)|[(?&->)|(?&?&->&_)]].
Qed.

Lemma total_unshift this values : total (unshift this values).
Proof.
  intros w. unfold returns.
  by destruct (unshift_cases this values w) as [(?&->)|(?&->)].
Qed.

Lemma total_readByte this : total (readByte this).
Proof.
  unfold readByte. apply total_bind; [apply total_read|]. intros r.
  destruct (done r); [apply total_ret|].
  apply total_bind; [apply total_lift|]. intros byte.
  apply total_bind; [apply total_lift|]. intros rest.
  apply total_bind; [apply total_unshift|]. intros; apply total_ret.
Qed.

Lemma total_releaseLock this : total (releaseLock this).
Proof.
  intros w. unfold returns, releaseLock, _releaseLock, handle_releaseLock. run.
  destruct (readers w !! this) as [r|] eqn:Hr; simpl; [|done].
  destruct (r_externalBuffer r); simpl.
  - destruct (input_object _); simpl; [|done]. rewrite Hr; simpl.
    destruct (r_source r) as [s h|x [|]]; simpl.
    + destruct (streams w !! s) as [st|]; [|done]. by destruct (holds st h).
    + by destruct (scalar_object x).
    + done.
  - rewrite Hr; simpl.
    destruct (r_source r) as [s h|x [|]]; simpl.
    + destruct (streams w !! s) as [st|]; [|done]. by destruct (holds st h).
    + by destruct (scalar_object x).
    + done.
Qed.

Lemma total_Reader_new i : total (Reader_new i).
Proof.
  intros w. unfold returns, Reader_new, getReader, new_object, new_array. run.
  destruct (input_buffer i w); simpl; destruct i as [s|x]; simpl; try done.
  - destruct (streams w !! s) as [st|]; [|done]. by destruct (locked st).
  - destruct (streams w !! s) as [st|]; [|done]. by destruct (locked st).
Qed.

Lemma void_preserves {A} P (m : M A) : preserves P m → preserves P (void m).
Proof. intros. apply preserves_bind; [done|]. intros; apply preserves_ret. Qed.

Lemma void_total {A} (m : M A) : total m → total (void m).
Proof. intros. apply total_bind; [done|]. intros; apply total_ret. Qed.

Lemma perform_preserves o : preserves buffers_ok (perform o).
Proof.
  destruct o; simpl; try apply void_preserves.
  - apply Reader_new_preserves.
  - apply read_preserves.
  - apply readByte_preserves.
  - apply readBytes_preserves.
  - apply peekBytes_preserves.
  - apply readLine_preserves.
  - apply unshift_preserves.
  - apply releaseLock_preserves.
  - apply readToEnd_preserves.
Qed.

Lemma perform_total o : total (perform o).
Proof.
  destruct o; simpl; try apply void_total.
  - apply total_Reader_new.
  - apply total_read.
  - apply total_readByte.
  - intros w; apply readBytes_returns.
  - intros w; apply peekBytes_returns.
  - intros w; apply readLine_returns.
  - apply total_unshift.
  - apply total_releaseLock.
  - intros w; apply readToEnd_returns.
Qed.

#[global] Instance nonempty_dec v : Decision (nonempty v).
Proof.
  destruct (kept v) eqn:Hk.
  - left. by apply kept_true.
  - right. intros H%kept_nonempty. congruence.
Defined.

Lemma filter_kept_filter values :
  List.filter kept values = filter nonempty values.
Proof.
  induction values as [|v values IH]; [done|]. simpl.
  rewrite filter_cons. destruct (kept v) eqn:Hk.
  - apply kept_true in Hk. rewrite decide_True by done. by f_equal.
  - rewrite decide_False; [done|]. intros Hv%kept_nonempty. congruence.
Qed.

(** * The claims *)

(** C1. A reader whose push-back buffer is not empty returns the front
    chunk of the buffer with [done = false] and removes it; nothing else
    in the store changes, in particular no call reaches the underlying
    source.  With an empty or absent buffer [read] is the source's pull,
    which the log records. *)
Theorem read_buffer_first this w :
  match buffered this w with
  | front :: rest =>
      ∃ r a,
        readers w !! this = Some r ∧ r_externalBuffer r = Some a ∧
        read this w = Ok (Result false front) (set_arrays <[a := rest]> w) ∧
        buffered this (set_arrays <[a := rest]> w) = rest ∧
        log (set_arrays <[a := rest]> w) = log w
  | [] =>
      read this w = _read this w ∧
      (is_Some (readers w !! this) →
       log (world_of (read this w) w) = log w ++ [EvPull this])
  end.
Proof.
  destruct (buffered this w) as [|front rest] eqn:Hb.
  - split; [by apply read_unbuffered|].
    intros [r Hr]. rewrite read_unbuffered by done.
    unfold _read, handle_read. run. rewrite Hr; simpl.
    destruct (r_source r) as [s h|x d]; simpl.
    + destruct (streams w !! s) as [st|]; [|done].
      destruct (holds st h); [|done].
      destruct (queue st); [by destruct (ends st)|done].
    + by destruct (d || _).
  - unfold buffered in Hb.
    destruct (readers w !! this) as [r|] eqn:Hr; [|done].
    destruct (r_externalBuffer r) as [a|] eqn:Ha; [|done].
    exists r, a. repeat split; try done.
    + by apply (read_buffered _ _ r).
    + unfold buffered; simpl. by rewrite Hr, Ha, array_contents_set.
Qed.

(** C8. [unshift(...values)] puts exactly the present, non-empty arguments
    in front of the push-back buffer, in argument order, and leaves what was
    buffered behind them. *)
Theorem unshift_prepends this w r values :
  readers w !! this = Some r →
  ∃ w', unshift this values w = Ok tt w' ∧
        buffered this w' = filter nonempty values ++ buffered this w.
Proof.
  intros Hr. pose proof (view_intro _ _ _ Hr) as Hv.
  destruct (view_unshift _ _ _ _ _ values Hv) as (w' & Hu & Hv').
  exists w'. split; [done|].
  apply view_Some in Hv' as (_ & _ & Hb & _).
  by rewrite Hb, filter_kept_filter.
Qed.

Lemma reads_exhausted this k :
  ∀ w, view this w = Some ([], [], EndDone) →
       ∃ w', reads k this w = Ok (replicate k (Result true VUndef)) w'.
Proof.
  induction k as [|k IH]; intros w Hv; simpl; [by eexists|].
  erewrite bind_Ok by (by apply view_read_done).
  destruct (IH (emit_event (EvPull this) w)) as (w' & Hk); [done|].
  erewrite bind_Ok by done. by eexists.
Qed.

(** What [unshift] leaves alone. *)
Lemma unshift_effect this values w w' :
  unshift this values w = Ok tt w' →
  streams w' = streams w ∧ doneReadingSet w' = doneReadingSet w ∧
  attached w' = attached w ∧ log w' = log w ∧
  (∀ a l, arrays w' !! a = Some l →
          arrays w !! a = Some l ∨ l = List.filter kept values ++ buffered this w) ∧
  (∀ r, readers w !! this = Some r →
        ∃ r', readers w' !! this = Some r' ∧
              r_stream r' = r_stream r ∧ r_source r' = r_source r).
Proof.
  unfold unshift, buffered, new_array. run.
  destruct (readers w !! this) as [r|] eqn:Hr; simpl; [|done].
  destruct (r_externalBuffer r) as [a|] eqn:Ha; simpl; intros [= <-]; simpl.
  - repeat split; try done.
    + intros a' l. rewrite lookup_insert. case_decide; [|by left].
      intros [= <-]. by right.
    + intros ? [= <-]. eauto.
  - repeat split; try done.
    + intros a' l. rewrite lookup_insert. case_decide.
      * intros [= <-]. right. f_equal.
        unfold array_contents; simpl. by rewrite lookup_insert_eq.
      * rewrite lookup_insert_ne by done. by left.
    + intros ? [= <-]. rewrite lookup_insert_eq. eauto.
Qed.

Lemma unshift_buffer this values w w' r :
  unshift this values w = Ok tt w' →
  readers w !! this = Some r →
  ∃ a, readers w' !! this = Some (Reader (r_stream r) (Some a) (r_source r)) ∧
       arrays w' !! a = Some (List.filter kept values ++ buffered this w) ∧
       match r_externalBuffer r with
       | Some a0 => a = a0
       | None => arrays w !! a = None
       end.
Proof.
  unfold unshift, buffered, new_array. run. intros Hu Hr. rewrite Hr in *.
  simpl in *. destruct r as [i [a0|] src]; simpl in *; injection Hu as <-; simpl.
  - exists a0. rewrite lookup_insert_eq. by split_and!.
  - exists (fresh (dom (arrays w))). rewrite !lookup_insert_eq.
    split_and!; try done.
    + unfold array_contents; simpl. by rewrite lookup_insert_eq.
    + apply not_elem_of_dom, is_fresh.
Qed.

(** C10, as the code has it.  On a reader whose source has terminated and
    whose buffer is empty, [peekBytes(n)] returns [undefined]; nothing
    enters any buffer, the source, the registry and the attached buffers
    are untouched, and every later [read] still reports [done].  The reader
    is as it was but for its buffer array: it has one afterwards, empty,
    the one it had or, when it had none, a new one. *)
Theorem peekBytes_exhausted this w length :
  view this w = Some ([], [], EndDone) →
  ∃ w', peekBytes this length w = Ok VUndef w' ∧
        view this w' = Some ([], [], EndDone) ∧
        buffered this w' = [] ∧
        (∀ a l, arrays w' !! a = Some l → l = [] ∨ arrays w !! a = Some l) ∧
        streams w' = streams w ∧ doneReadingSet w' = doneReadingSet w ∧
        attached w' = attached w ∧
        (∀ r, readers w !! this = Some r →
              ∃ a, readers w' !! this
                     = Some (Reader (r_stream r) (Some a) (r_source r)) ∧
                   arrays w' !! a = Some [] ∧
                   match r_externalBuffer r with
                   | Some a0 => a = a0
                   | None => arrays w !! a = None
                   end) ∧
        ∀ k, ∃ w'', reads k this w' = Ok (replicate k (Result true VUndef)) w''.
Proof.
  intros Hv.
  pose proof (readBytes_on_view this length w _ _ _ Hv) as (w1 & Hr & Hv1).
  simpl in Hv1.
  assert (w1 = emit_event (EvPull this) w) as ->.
  { revert Hr. unfold readBytes. erewrite bind_Ok by reflexivity.
    unfold enough_fuel. erewrite view_ahead by done. simpl.
    erewrite bind_Ok by (by apply view_read_done). simpl. by intros [= <-]. }
  destruct (view_unshift _ _ _ _ _ [VUndef] Hv1) as (w' & Hu & Hv').
  exists w'. unfold peekBytes. erewrite bind_Ok by done.
  erewrite bind_Ok by done. split; [done|]. split; [done|].
  pose proof Hu as Hu'.
  apply unshift_effect in Hu as (Hst & Hdr & Hat & _ & Har & Hrd).
  apply view_Some in Hv1 as (_ & _ & Hb1 & _).
  split_and!; try done.
  - apply view_Some in Hv' as (r' & _ & Hb' & _). exact Hb'.
  - intros a l [?| ->]%Har; [by right|left]. by rewrite Hb1.
  - intros r Hrw.
    destruct (unshift_buffer _ _ _ _ r Hu' Hrw) as (a & Hra & Haa & Hfresh).
    exists a. rewrite Hb1 in Haa. by split_and!.
  - intros k. by apply reads_exhausted.
Qed.

(** C7. Every public operation of a reader keeps the push-back buffers free
    of absent and of empty chunks: from a store whose arrays hold only
    present, non-empty chunks, the operation comes back (returning or
    throwing) with a store of the same kind. *)
Theorem buffers_never_hold_empty_chunks o w :
  buffers_ok w →
  returns (perform o w) ∧ buffers_ok (world_of (perform o w) w).
Proof.
  intros Hw. split; [apply perform_total|].
  pose proof (perform_preserves o w Hw) as H.
  by destruct (perform o w).
Qed.

Lemma agrees_Returns {A} (o : outcome A) a k pushed this b s e :
  agrees o (Returns a k pushed) this b s e →
  ∃ w', o = Ok a w' ∧
        view this w' = Some (pushed ++ drop k b, drop (k - length b) s, e).
Proof. done. Qed.

(** C4. [readBytes(n)] takes chunks until their lengths add up to at least
    [n] or the source terminates.  Termination with nothing accumulated
    gives [undefined]; termination with fewer than [n] units accumulated
    gives their concatenation, short as it is; otherwise the result is the
    first [n] units of the concatenation of the chunks taken, and what lies
    beyond offset [n] goes back to the front of the buffer as one chunk. *)
Theorem readBytes_accumulates this w b s e length :
  view this w = Some (b, s, e) →
  (b ++ s = [] → e = EndDone →
   ∃ w', readBytes this length w = Ok VUndef w' ∧
         view this w' = Some ([], [], EndDone))
  ∧
  (b ++ s ≠ [] → e = EndDone →
   Forall is_chunk (b ++ s) → total_length (b ++ s) < length →
   ∀ whole, concat (b ++ s) = inr whole →
   ∃ w', readBytes this length w = Ok whole w' ∧
         size whole = total_length (b ++ s) ∧
         units whole = content (b ++ s) ∧
         view this w' = Some ([], [], EndDone))
  ∧
  (∀ pre c post,
     b ++ s = pre ++ c :: post →
     Forall is_chunk (pre ++ [c]) →
     pre = [] ∨ total_length pre < length →
     length ≤ total_length (pre ++ [c]) →
     ∀ whole, concat (pre ++ [c]) = inr whole →
     ∃ w' first rest,
       readBytes this length w = Ok first w' ∧
       slice whole 0 (Some length) = inr first ∧
       slice whole length None = inr rest ∧
       units whole = content (pre ++ [c]) ∧
       units first = take length (units whole) ∧
       units rest = drop length (units whole) ∧
       size first = length ∧
       buffered this w' =
         filter nonempty [rest] ++ drop (S (List.length pre)) b ∧
       view this w' =
         Some (filter nonempty [rest] ++ drop (S (List.length pre)) b,
               drop (S (List.length pre) - List.length b) s, e)).
Proof.
  intros Hv. pose proof (readBytes_on_view this length w _ _ _ Hv) as Hag.
  split_and!.
  - intros Hl ->. rewrite Hl in Hag. simpl in Hag.
    destruct Hag as (w' & Hr & Hv'). apply app_eq_nil in Hl as [-> ->].
    eauto.
  - intros Hne -> Hc Hn whole Hw.
    rewrite (readBytes_on_short length (b ++ s) [] 0) in Hag by (done || by right).
    cbn [app] in Hag. destruct (b ++ s) as [|v l] eqn:Hl; [done|].
    rewrite Hw in Hag. apply agrees_Returns in Hag as (w' & Hr & Hv').
    rewrite <- Hl in Hv'.
    rewrite length_app, drop_ge, drop_ge in Hv' by lia.
    apply concat_inr in Hw as (_ & ? & ?); [|done..]. eauto.
  - intros pre c post Hl Hc Hpre Hn whole Hw. rewrite Hl in Hag.
    rewrite (readBytes_on_enough length pre c post e [] 0) in Hag by done.
    cbn [app] in Hag. rewrite Hw in Hag.
    apply concat_inr in Hw as (Hwc & Hsz & Hu); [|by destruct pre|done].
    destruct (slice_chunk whole length Hwc)
      as (first & rest & Hf & Hr & _ & _ & Huf & Hur).
    rewrite Hr, Hf in Hag. apply agrees_Returns in Hag as (w' & Hrb & Hv').
    rewrite filter_kept_filter in Hv'.
    exists w', first, rest. split_and!; try done.
    + apply slice_first_size in Hf. lia.
    + by apply view_Some in Hv' as (r' & _ & ? & _).
Qed.

(** C3, as the code has it.  When everything ahead of the reader (buffered
    or still to come from the source) is a present, non-empty chunk,
    [readBytes(n)] right after a [peekBytes(n)] that returned gives the same
    result, be it [n] units, a short read or [undefined]; and [peekBytes]
    leaves the sequence of units ahead of the reader as it was, whatever the
    chunks. *)
Theorem peekBytes_then_readBytes this w b s e length v w1 :
  view this w = Some (b, s, e) →
  peekBytes this length w = Ok v w1 →
  (∃ b1 s1, view this w1 = Some (b1, s1, e) ∧
            content (b1 ++ s1) = content (b ++ s)) ∧
  (Forall nonempty (b ++ s) → ∃ w2, readBytes this length w1 = Ok v w2).
Proof.
  intros Hv Hp. pose proof (readBytes_on_view this length w _ _ _ Hv) as Hag.
  unfold peekBytes in Hp.
  destruct (readBytes_on length [] 0 (b ++ s) e) as [v' k pushed|x] eqn:Hon.
  2:{ destruct Hag as (w' & Hr). by erewrite bind_Throw in Hp. }
  destruct Hag as (w' & Hr & Hv').
  erewrite bind_Ok in Hp by done.
  destruct (view_unshift _ _ _ _ _ [v'] Hv') as (w'' & Hu & Hv'').
  erewrite bind_Ok in Hp by done. injection Hp as <- <-.
  assert ((List.filter kept [v'] ++ pushed ++ drop k b)
            ++ drop (k - List.length b) s
          = List.filter kept [v'] ++ pushed ++ drop k (b ++ s)) as Hahead.
  { by rewrite drop_app, <- !app_assoc. }
  split.
  - eexists _, _. split; [done|]. rewrite Hahead.
    by eapply readBytes_on_content.
  - intros Hl.
    destruct (readBytes_on_again _ _ _ _ _ _ Hl Hon) as (k' & pushed' & Hon').
    pose proof (readBytes_on_view this length w'' _ _ _ Hv'') as Hag.
    rewrite Hahead, Hon' in Hag. destruct Hag as (w2 & ? & _). eauto.
Qed.

(** ** One value, two readers *)

Lemma Reader_new_scalar x w :
  ∃ this w1 buf,
    Reader_new (IScalar x) w = Ok this w1 ∧
    readers w1 !! this = Some (Reader (IScalar x) buf (SrcOneShot x false)) ∧
    attached w1 = attached w ∧ doneReadingSet w1 = doneReadingSet w ∧
    (buf = None → input_buffer (IScalar x) w = None) ∧
    buffered this w1 =
      match input_buffer (IScalar x) w with
      | Some a => array_contents a w
      | None => []
      end.
Proof.
  unfold Reader_new, new_array, new_object. run.
  destruct (input_buffer (IScalar x) w) as [a|] eqn:Hi; simpl.
  - eexists _, _, _. split; [done|]. simpl. rewrite lookup_insert_eq.
    split_and!; try done. unfold buffered; simpl.
    rewrite lookup_insert_eq. simpl.
    unfold array_contents at 1; simpl. by rewrite lookup_insert_eq.
  - eexists _, _, _. split; [done|]. simpl. rewrite lookup_insert_eq.
    split_and!; try done. unfold buffered; simpl.
    by rewrite lookup_insert_eq.
Qed.

Lemma read_same_reader this i buf x X D :
  preserves (same_reader this i buf x X D) (read this).
Proof.
  intros w (Hat & Hd & d & Hr). unfold read, _read. run. rewrite Hr; simpl.
  assert (∀ w', attached w' = attached w → doneReadingSet w' = doneReadingSet w →
                (∃ d', readers w' !! this = Some (Reader i buf (SrcOneShot x d'))) →
                same_reader this i buf x X D w') as Hsame.
  { intros w' Ha Hd' ?. unfold same_reader. rewrite Ha, Hd'. by split_and!. }
  assert (match
             (if d || doneReadingSet_has x (emit_event (EvPull this) w)
              then ret (Result true VUndef)
              else modify (set_readers
                     <[this := Reader i buf (SrcOneShot x true)]>);;;
                   ret (Result false (scalar_value x)))
               (emit_event (EvPull this) w)
           with
           | Ok _ w' | Throw _ w' => same_reader this i buf x X D w'
           | OutOfFuel => True
           end) as Hsrc.
  { destruct (d || _); run; apply Hsame; simpl; eauto.
    rewrite lookup_insert_eq. eauto. }
  destruct buf as [a|]; simpl; [|rewrite Hr; exact Hsrc].
  destruct (array_contents a w); simpl; [rewrite Hr; exact Hsrc|].
  apply Hsame; simpl; eauto.
Qed.

Lemma readToEnd_loop_same_reader this i buf x X D fuel :
  ∀ result, preserves (same_reader this i buf x X D) (readToEnd_loop fuel this result).
Proof.
  induction fuel as [|fuel IH]; intros result; [by intros w Hw|].
  cbn [readToEnd_loop]. apply preserves_bind; [apply read_same_reader|].
  intros r. destruct (done r); [apply preserves_ret|apply IH].
Qed.

Lemma readToEnd_loop_view this l :
  ∀ fuel b s w result,
    view this w = Some (b, s, EndDone) → b ++ s = l → length l < fuel →
    ∃ w', readToEnd_loop fuel this result w = Ok (result ++ l) w' ∧
          view this w' = Some ([], [], EndDone).
Proof.
  induction l as [|v l IH]; intros fuel b s w result Hv Hl Hf;
    (destruct fuel as [|fuel]; [simpl in Hf; lia|]); cbn [readToEnd_loop].
  - apply app_eq_nil in Hl as [-> ->].
    erewrite bind_Ok by (by apply view_read_done). simpl.
    rewrite app_nil_r. eauto.
  - destruct (view_read_ahead _ _ _ _ _ _ _ Hv Hl) as (w1 & Hr & Hv1).
    erewrite bind_Ok by done. simpl.
    destruct (IH fuel _ _ w1 (result ++ [v]) Hv1) as (w' & Hloop & Hv').
    + destruct b; simpl in *; [by subst|]. rewrite !drop_0. congruence.
    + simpl in Hf. lia.
    + rewrite <- app_assoc in Hloop. eauto.
Qed.

(** C2, as the code has it.  For a byte array (an object, which the
    exhaustion registry can hold): wrap it, read it to the end, release the
    reader, wrap the same array again; the second reader's first [read]
    reports [done] without a value. *)
Theorem second_reader_of_exhausted_array o b w :
  ∃ w', wrap_twice (SBytes o b) w = Ok (Result true VUndef) w'.
Proof.
  set (x := SBytes o b). unfold wrap_twice.
  destruct (Reader_new_scalar x w)
    as (r1 & w1 & buf & Hnew & Hr1 & Hat1 & Hd1 & Hbuf & Hb1).
  erewrite bind_Ok by done.
  (* reading to the end *)
  pose proof (view_intro _ _ _ Hr1) as Hv1. simpl in Hv1.
  destruct (readToEnd_loop_view r1 _ (enough_fuel r1 w1) _ _ w1 [] Hv1 eq_refl)
    as (w2 & Hloop & Hv2).
  { unfold enough_fuel. erewrite view_ahead by done. lia. }
  pose proof (readToEnd_loop_same_reader r1 (IScalar x) buf x
                (attached w1) (doneReadingSet w1) (enough_fuel r1 w1) [] w1) as Hs.
  rewrite Hloop in Hs. destruct Hs as (Hat2 & Hd2 & d & Hr2); [split_and!; eauto|].
  assert (∃ chunks, readToEnd r1 (λ chunks, inr chunks) w1 = Ok chunks w2)
    as (chunks & Hend).
  { unfold readToEnd. erewrite bind_Ok by reflexivity.
    erewrite bind_Ok by done. by eexists. }
  erewrite bind_Ok by done.
  apply view_Some in Hv2 as (r2 & Hr2' & Hb2 & Hs2 & _).
  rewrite Hr2 in Hr2'. injection Hr2' as <-. simpl in Hs2.
  assert (d || doneReadingSet_has x w2 = true) as Hdone.
  { by destruct (d || doneReadingSet_has x w2). }
  (* releasing *)
  assert (∃ w3, releaseLock r1 w2 = Ok tt w3 ∧
                doneReadingSet_has x w3 = true ∧
                match input_buffer (IScalar x) w3 with
                | Some a => array_contents a w3
                | None => []
                end = []) as (w3 & Hrel & Hhas & Hin).
  { unfold releaseLock, _releaseLock. run. rewrite Hr2; simpl.
    unfold buffered in Hb2. rewrite Hr2 in Hb2. simpl in Hb2.
    destruct buf as [a|]; simpl; rewrite Hr2; simpl.
    - destruct d; simpl; (eexists; split; [done|]);
        unfold input_buffer, doneReadingSet_has; simpl;
        rewrite lookup_insert_eq; (split; [|done]).
      + apply bool_decide_eq_true, elem_of_union. left. by apply elem_of_singleton.
      + done.
    - assert (input_buffer (IScalar x) w2 = None) as Hnone.
      { unfold input_buffer in *. simpl in *. rewrite Hat2, Hat1. by apply Hbuf. }
      destruct d; simpl; (eexists; split; [done|]);
        unfold input_buffer, doneReadingSet_has in *; simpl in *;
        rewrite Hnone; (split; [|done]).
      + apply bool_decide_eq_true, elem_of_union. left. by apply elem_of_singleton.
      + done. }
  erewrite bind_Ok by done.
  (* the second reader *)
  destruct (Reader_new_scalar x w3)
    as (r2 & w4 & buf2 & Hnew2 & Hr4 & Hat4 & Hd4 & _ & Hb4).
  erewrite bind_Ok by done.
  rewrite Hin in Hb4.
  eexists. apply view_read_done.
  rewrite (view_intro _ _ _ Hr4), Hb4. simpl.
  unfold doneReadingSet_has in *. simpl in *. rewrite Hd4. by rewrite Hhas.
Qed.

(** ** Handing a buffer over *)

Lemma Reader_new_inherits i o a l w this2 w2 :
  input_object i = Some o → attached w !! o = Some a → arrays w !! a = Some l →
  Reader_new i w = Ok this2 w2 →
  ∃ r2 a2,
    readers w2 !! this2 = Some r2 ∧ r_stream r2 = i ∧
    r_externalBuffer r2 = Some a2 ∧ a2 ≠ a ∧
    arrays w2 = <[a2 := l]> (arrays w).
Proof.
  intros Ho Hat Ha. unfold Reader_new, input_buffer, new_array, new_object, getReader.
  run. rewrite Ho, Hat. simpl. unfold array_contents. rewrite Ha. simpl.
  assert (fresh (dom (arrays w)) ≠ a) as Hfresh.
  { intros Heq. apply (is_fresh (dom (arrays w))). rewrite Heq.
    apply elem_of_dom. eauto. }
  destruct i as [s|x]; simpl.
  - destruct (streams w !! s) as [st|]; [|done].
    destruct (locked st); [done|]. intros [= <- <-]. simpl.
    eexists _, _. rewrite lookup_insert_eq. by split_and!.
  - intros [= <- <-]. simpl.
    eexists _, _. rewrite lookup_insert_eq. by split_and!.
Qed.

Lemma _releaseLock_effect this w r :
  readers w !! this = Some r →
  ∃ w', _releaseLock this w = Ok tt w' ∧
        attached w' = attached w ∧ arrays w' = arrays w ∧
        readers w' = readers w ∧ log w' = log w ++ [EvRelease this] ∧
        match r_source r with
        | SrcHandle s h => ∀ st, streams w' !! s = Some st → holds st h = false
        | SrcOneShot _ _ => streams w' = streams w
        end.
Proof.
  intros Hr. unfold _releaseLock, handle_releaseLock. run. rewrite Hr; simpl.
  destruct (r_source r) as [s h|x d]; simpl.
  - destruct (streams w !! s) as [st|] eqn:Hs.
    + destruct (holds st h) eqn:Hh; eexists; (split; [done|]); simpl;
        split_and!; try done.
      * intros st'. rewrite lookup_insert_eq. by intros [= <-].
      * intros st'. rewrite Hs. by intros [= <-].
    + eexists; split; [done|]. simpl. split_and!; try done.
      intros st'. by rewrite Hs.
  - destruct d; [destruct (scalar_object x)|]; simpl;
      eexists; (split; [done|]); by simpl.
Qed.

Lemma releaseLock_unfold this w r o :
  readers w !! this = Some r →
  input_object (r_stream r) = Some o →
  releaseLock this w =
    _releaseLock this
      match r_externalBuffer r with
      | Some a => set_attached <[o := a]> w
      | None => w
      end.
Proof.
  intros Hr Ho. unfold releaseLock. run. rewrite Hr; simpl.
  destruct (r_externalBuffer r); simpl; [|done]. by rewrite Ho.
Qed.

(** C6, as the code has it.  On a reader of an object (a stream or a byte
    array) [releaseLock] attaches the reader's push-back buffer, the array
    itself and not a copy, to the wrapped input whenever the reader has a
    buffer, empty or not, and attaches nothing otherwise; it then releases
    the underlying source.  The copy is taken by the constructor: a reader
    built afterwards over the same input gets a fresh array with the
    elements the attached one has at that moment, so later changes to the
    released reader's buffer do not reach it. *)
Theorem releaseLock_attaches_buffer this w r o :
  readers w !! this = Some r →
  input_object (r_stream r) = Some o →
  ∃ w',
    releaseLock this w = Ok tt w' ∧
    attached w' =
      match r_externalBuffer r with
      | Some a => <[o := a]> (attached w)
      | None => attached w
      end ∧
    arrays w' = arrays w ∧ readers w' = readers w ∧
    log w' = log w ++ [EvRelease this] ∧
    match r_source r with
    | SrcHandle s h => ∀ st, streams w' !! s = Some st → holds st h = false
    | SrcOneShot _ _ => streams w' = streams w
    end ∧
    ∀ a l this2 w2,
      r_externalBuffer r = Some a → arrays w !! a = Some l →
      Reader_new (r_stream r) w' = Ok this2 w2 →
      ∃ r2 a2,
        readers w2 !! this2 = Some r2 ∧ r_externalBuffer r2 = Some a2 ∧
        a2 ≠ a ∧ arrays w2 !! a2 = Some l ∧
        ∀ l', buffered this2 (set_arrays <[a := l']> w2) = l.
Proof.
  intros Hr Ho. rewrite (releaseLock_unfold _ _ _ _ Hr Ho).
  destruct (_releaseLock_effect this
              match r_externalBuffer r with
              | Some a => set_attached <[o := a]> w
              | None => w
              end r) as (w' & Hrel & Hat & Har & Hrd & Hlog & Hsrc).
  { by destruct (r_externalBuffer r). }
  assert (attached w' =
            match r_externalBuffer r with
            | Some a => <[o := a]> (attached w)
            | None => attached w
            end) as Hat'.
  { rewrite Hat. by destruct (r_externalBuffer r). }
  assert (arrays w' = arrays w) as Har' by (rewrite Har; by destruct (r_externalBuffer r)).
  clear Hat Har. rename Hat' into Hat, Har' into Har.
  exists w'. split_and!; try done.
  1-2: by destruct (r_externalBuffer r).
  1: by destruct (r_externalBuffer r), (r_source r).
  intros a l this2 w2 Hbuf Ha Hnew. rewrite Hbuf in Hat.
  eapply Reader_new_inherits in Hnew
      as (r2 & a2 & Hr2 & _ & Hbuf2 & Hne & Har2); eauto.
  2:{ rewrite Hat. apply lookup_insert_eq. }
  2:{ by rewrite Har. }
  exists r2, a2. split_and!; try done.
  - rewrite Har2. apply lookup_insert_eq.
  - intros l'. unfold buffered; simpl. rewrite Hr2, Hbuf2.
    unfold array_contents; simpl.
    rewrite lookup_insert_ne by done. by rewrite Har2, lookup_insert_eq.
Qed.

(** ** The adapter *)

Section NodeReadable_facts.

Context {Sink : Type}.
Variable push : option val → Sink → (exn + bool) * Sink.
Variable emit_error : exn → Sink → option exn * Sink.

Lemma drain_finishes fuel :
  ∀ nr w, length (ahead (_reader nr) w) < fuel →
          fst (drain push fuel nr w) ≠ Unfinished.
Proof.
  induction fuel as [|fuel IH]; intros nr w Hf; [lia|]. cbn [drain].
  destruct (read_cases (_reader nr) w)
    as [(e & w' & ->)|[(w' & ->)|(v & w' & -> & Hlt)]]; simpl.
  - done.
  - by destruct (push None (base nr)) as [[?|?] ?].
  - destruct (push (Some v) (base nr)) as [[?|more] k]; [done|].
    destruct (negb more || _); [done|]. apply IH. simpl. lia.
Qed.


Lemma pushes_snoc vs v (k : Sink) :
  pushes push (vs ++ [v]) k = snd (push v (pushes push vs k)).
Proof. unfold pushes. by rewrite foldl_app. Qed.

Lemma pushes_cons v vs (k : Sink) :
  pushes push (v :: vs) k = pushes push vs (snd (push v k)).
Proof. done. Qed.

Lemma enough_fuel_view this w b s e :
  view this w = Some (b, s, e) → enough_fuel this w = length (b ++ s) + 1.
Proof. intros Hv. unfold enough_fuel. rewrite (view_ahead _ _ _ _ _ Hv). lia. Qed.

(** While the consumer accepts, the loop goes on: the chunks accepted are
    pushed one by one and the rest stays ahead of the reader. *)
Lemma drain_accepts l1 :
  ∀ fuel nr w b s e rest,
    view (_reader nr) w = Some (b, s, e) → b ++ s = l1 ++ rest →
    _cancelling nr = false → accepts push l1 (base nr) = true →
    ∃ w1 b1 s1,
      drain push (length l1 + fuel) nr w =
        drain push fuel (set_base (pushes push (Some <$> l1) (base nr)) nr) w1 ∧
      view (_reader nr) w1 = Some (b1, s1, e) ∧ b1 ++ s1 = rest.
Proof.
  induction l1 as [|v l1 IH]; intros fuel nr w b s e rest Hv Hl Hc Ha.
  - exists w, b, s. split_and!; try done. by destruct nr.
  - destruct (view_read_ahead _ _ _ _ _ _ _ Hv Hl) as (w1 & Hr & Hv1).
    assert (drop 1 b ++ drop (1 - length b) s = l1 ++ rest) as Hl1.
    { destruct b; simpl in *; [by subst|]. rewrite !drop_0. congruence. }
    cbn [length Nat.add drain]. rewrite Hr. cbn [done value].
    cbn [accepts] in Ha. rewrite fmap_cons, pushes_cons.
    destruct (push (Some v) (base nr)) as [[x|[|]] k]; try done.
    cbv zeta. cbn [negb orb snd]. change (_cancelling (set_base k nr)) with (_cancelling nr).
    rewrite Hc.
    destruct (IH fuel (set_base k nr) w1 _ _ e rest Hv1 Hl1 Hc Ha)
      as (w2 & b2 & s2 & Hd & Hv2 & Hl2).
    exists w2, b2, s2. split_and!; try done.
Qed.


Lemma NodeReadable_read_abrupt nr size w x nr1 w1 :
  _reading nr = false → _cancelling nr = false →
  drain push (enough_fuel (_reader nr) w) (set_reading true nr) w
    = (Abrupt x, (nr1, w1)) →
  NodeReadable_read push emit_error nr size w
    = (Normal,
       (set_promise
          match fst (emit_error x (base nr1)) with
          | None => Fulfilled
          | Some x' => Rejected x'
          end
          (set_base (snd (emit_error x (base nr1))) (add_error x nr1)),
        w1)).
Proof.
  intros Hr Hc Hd. unfold NodeReadable_read, doRead. rewrite Hr, Hc. cbn [orb].
  cbv zeta. change (_reader (set_reading true nr)) with (_reader nr).
  rewrite Hd. unfold emit. cbv zeta. cbn [add_error base].
  by destruct (emit_error x (base nr1)) as [[x'|] k'].
Qed.

(** C9. The entry point [_read] of the web-to-node adapter never completes
    abruptly, and does nothing while a loop is running or the adapter is
    being cancelled.  On an idle adapter, an exception raised while the loop
    pulls from the reader and pushes downstream surfaces as one ['error']
    event that carries it, emitted to the consumer as the exception left
    it: be it thrown by the source once the chunks ahead are pushed, by the
    [push] of a chunk, or by the [push(null)] at the end.  What the
    listeners throw in turn goes into the promise of the loop, not to the
    caller. *)
Theorem NodeReadable_read_never_throws nr size w :
  fst (NodeReadable_read push emit_error nr size w) = Normal ∧
  (_reading nr || _cancelling nr = true →
   snd (NodeReadable_read push emit_error nr size w) = (nr, w)) ∧
  ∀ b s e,
    view (_reader nr) w = Some (b, s, e) →
    _reading nr = false → _cancelling nr = false →
    (∀ x, e = EndThrow x →
          accepts push (b ++ s) (base nr) = true →
          surfaced emit_error x (pushes push (Some <$> (b ++ s)) (base nr)) nr
            (fst (snd (NodeReadable_read push emit_error nr size w)))) ∧
    (∀ l1 v l2 x k,
          b ++ s = l1 ++ v :: l2 →
          accepts push l1 (base nr) = true →
          push (Some v) (pushes push (Some <$> l1) (base nr)) = (inl x, k) →
          surfaced emit_error x k nr
            (fst (snd (NodeReadable_read push emit_error nr size w)))) ∧
    (∀ x k, e = EndDone →
          accepts push (b ++ s) (base nr) = true →
          push None (pushes push (Some <$> (b ++ s)) (base nr)) = (inl x, k) →
          surfaced emit_error x k nr
            (fst (snd (NodeReadable_read push emit_error nr size w)))).
Proof.
  split; [|split].
  - unfold NodeReadable_read. destruct (_reading nr || _cancelling nr); [done|].
    cbv zeta. by destruct (doRead _ _ _ _) as [p [nr' w']].
  - intros Hg. unfold NodeReadable_read. by rewrite Hg.
  - intros b s e Hv Hr Hc.
    pose proof (enough_fuel_view _ _ _ _ _ Hv) as Hfuel.
    split; [|split].
    + intros x -> Ha.
      destruct (drain_accepts (b ++ s) 1 (set_reading true nr) w b s _ []
                  Hv (eq_sym (app_nil_r _)) Hc Ha)
        as (w1 & b1 & s1 & Hd & Hv1 & [-> ->]%app_eq_nil).
      cbn [_reader set_reading] in Hv1.
      erewrite NodeReadable_read_abrupt; [|done|done|].
      2:{ rewrite Hfuel, Hd. cbn [drain _reader set_base set_reading].
          by rewrite (view_read_throw _ _ _ Hv1). }
      by unfold surfaced.
    + intros l1 v l2 x k Hl Ha Hp.
      destruct (drain_accepts l1 (S (length l2 + 1)) (set_reading true nr) w b s e
                  (v :: l2) Hv Hl Hc Ha)
        as (w1 & b1 & s1 & Hd & Hv1 & Hl1).
      cbn [_reader set_reading] in Hv1.
      destruct (view_read_ahead _ _ _ _ _ _ _ Hv1 Hl1) as (w2 & Hrd & _).
      erewrite NodeReadable_read_abrupt; [|done|done|].
      2:{ rewrite Hfuel.
          replace (length (b ++ s) + 1) with (length l1 + S (length l2 + 1))
            by (rewrite Hl, length_app; simpl; lia).
          rewrite Hd. cbn [drain _reader set_base set_reading base].
          rewrite Hrd. cbn [done value]. by rewrite Hp. }
      by unfold surfaced.
    + intros x k -> Ha Hp.
      destruct (drain_accepts (b ++ s) 1 (set_reading true nr) w b s _ []
                  Hv (eq_sym (app_nil_r _)) Hc Ha)
        as (w1 & b1 & s1 & Hd & Hv1 & [-> ->]%app_eq_nil).
      cbn [_reader set_reading] in Hv1.
      erewrite NodeReadable_read_abrupt; [|done|done|].
      2:{ rewrite Hfuel, Hd. cbn [drain _reader set_base set_reading base].
          rewrite (view_read_done _ _ Hv1). cbn [done]. by rewrite Hp. }
      by unfold surfaced.
Qed.

End NodeReadable_facts.

(** ** Concrete runs *)

(** C5. Over a source that delivers "ab", "c\nde", "f\n", "g" and then
    terminates, four calls of [readLine] return "abc\n", "def\n", "g" and
    [undefined]. *)
Theorem readLine_splits_lines :
  ∃ w', four_lines (web_stream four_chunks Closed) =
          Ok [VStr (str_append "abc" nl); VStr (str_append "def" nl);
              VStr "g"; VUndef] w'.
Proof. eexists. vm_compute. reflexivity. Qed.

(** C2 fails for a primitive string: [doneReadingSet.add] throws on it, the
    [catch] swallows that, and the second reader yields the string again. *)
Lemma second_reader_of_string_yields_again :
  ∃ r w', wrap_twice (SStr "a") empty_world = Ok r w' ∧
          r = Result false (VStr "a") ∧ r ≠ Result true VUndef.
Proof. eexists _, _. split; [vm_compute; reflexivity|]. by split. Qed.

(** C3 fails when the source delivers an empty chunk: over the empty string
    [peekBytes(1)] returns the empty string, which [unshift] drops, and
    [readBytes(1)] then returns [undefined]. *)
Lemma peekBytes_of_empty_chunk_differs :
  ∃ p w', peek_then_read (IScalar (SStr EmptyString)) 1 empty_world = Ok p w' ∧
          p = (VStr EmptyString, VUndef) ∧ fst p ≠ snd p.
Proof. eexists _, _. split; [vm_compute; reflexivity|]. by split. Qed.

(** C6 fails twice over.  The array attached at release is the reader's own:
    a chunk pushed on the released reader afterwards is inherited by the
    next reader, which gets "y", "x" where a copy made at release would give
    "x".  And a buffer that exists but is empty is attached all the same. *)
Lemma releaseLock_attaches_an_alias :
  (∃ l w', release_then_unshift (web_stream [] Closed) = Ok l w' ∧
           l = [VStr "y"; VStr "x"] ∧ l ≠ [VStr "x"]) ∧
  (∃ w', release_after_peek (web_stream [] Closed) = Ok (Some []) w').
Proof.
  split.
  - eexists _, _. split; [vm_compute; reflexivity|]. by split.
  - eexists. vm_compute. reflexivity.
Qed.

(** C10 fails for a reader that had no buffer array: [peekBytes] gives it
    one, and that shows.  The exhausted reader of a string can be released
    before [peekBytes(4)], and [releaseLock] throws a [TypeError] after it;
    the exhausted reader of a stream has no buffer before and the array 1,
    empty, after. *)
Lemma peekBytes_exhausted_creates_a_buffer :
  view 1%positive exhausted_string_reader = Some ([], [], EndDone) ∧
  (∃ w', releaseLock 1%positive exhausted_string_reader = Ok tt w') ∧
  (∃ w', peek_then_release 4 exhausted_string_reader = Throw TypeError w') ∧
  r_externalBuffer <$> readers drained !! 1%positive = Some None ∧
  r_externalBuffer <$> readers (after (peekBytes 1%positive 4) drained) !! 1%positive
    = Some (Some 1%positive).
Proof.
  split_and!.
  - vm_compute. reflexivity.
  - eexists. vm_compute. reflexivity.
  - eexists. vm_compute. reflexivity.
  - vm_compute. reflexivity.
  - vm_compute. reflexivity.
Qed.

Lemma read_buffer_first_witness :
  ∃ r a,
    readers two_buffered !! 1%positive = Some r ∧ r_externalBuffer r = Some a ∧
    read 1%positive two_buffered =
      Ok (Result false (VStr "x")) (set_arrays <[a := [VStr "y"]]> two_buffered) ∧
    buffered 1%positive (set_arrays <[a := [VStr "y"]]> two_buffered) = [VStr "y"] ∧
    log (set_arrays <[a := [VStr "y"]]> two_buffered) = log two_buffered.
Proof. exact (read_buffer_first 1%positive two_buffered). Defined.

Lemma unshift_prepends_witness :
  ∃ w', unshift 1%positive [VStr "p"; VUndef; VStr EmptyString; VBytes []; VStr "q"] two_buffered
          = Ok tt w' ∧
        buffered 1%positive w' =
          filter nonempty [VStr "p"; VUndef; VStr EmptyString; VBytes []; VStr "q"]
            ++ buffered 1%positive two_buffered.
Proof.
  apply (unshift_prepends 1%positive two_buffered
           (Reader (IStream 1%positive) (Some 1%positive) (SrcHandle 1%positive 1))).
  vm_compute. reflexivity.
Defined.

Lemma peekBytes_exhausted_witness :
  ∃ w', peekBytes 1%positive 4 drained = Ok VUndef w' ∧
        view 1%positive w' = Some ([], [], EndDone) ∧
        buffered 1%positive w' = [] ∧
        (∀ a l, arrays w' !! a = Some l → l = [] ∨ arrays drained !! a = Some l) ∧
        streams w' = streams drained ∧
        doneReadingSet w' = doneReadingSet drained ∧
        attached w' = attached drained ∧
        (∀ r, readers drained !! 1%positive = Some r →
              ∃ a, readers w' !! 1%positive
                     = Some (Reader (r_stream r) (Some a) (r_source r)) ∧
                   arrays w' !! a = Some [] ∧
                   match r_externalBuffer r with
                   | Some a0 => a = a0
                   | None => arrays drained !! a = None
                   end) ∧
        ∀ k, ∃ w'', reads k 1%positive w' = Ok (replicate k (Result true VUndef)) w''.
Proof.
  apply (peekBytes_exhausted 1%positive drained 4). vm_compute. reflexivity.
Defined.

Lemma buffers_ok_two_buffered : buffers_ok two_buffered.
Proof.
  intros a l. change (arrays two_buffered) with
    (<[1%positive := [VStr "x"; VStr "y"]]> (∅ : gmap loc (list val))).
  rewrite lookup_insert. case_decide; [|by rewrite lookup_empty].
  intros [= <-]. repeat constructor; (discriminate || simpl; lia).
Defined.

Lemma buffers_never_hold_empty_chunks_witness :
  returns (perform (PeekBytes 1%positive 3) two_buffered) ∧
  buffers_ok (world_of (perform (PeekBytes 1%positive 3) two_buffered) two_buffered).
Proof.
  apply (buffers_never_hold_empty_chunks (PeekBytes 1%positive 3) two_buffered).
  exact buffers_ok_two_buffered.
Defined.

Lemma readBytes_accumulates_witness :
  (∃ w', readBytes 1%positive 3 two_chunks = Ok (VStr "abc") w' ∧
         buffered 1%positive w' = [VStr "d"]) ∧
  (∃ w', readBytes 1%positive 100 two_chunks = Ok (VStr "abcd") w' ∧
         view 1%positive w' = Some ([], [], EndDone)).
Proof.
  split.
  - destruct (readBytes_accumulates 1%positive two_chunks
                [] [VStr "ab"; VStr "cd"] EndDone 3) as (_ & _ & H).
    { vm_compute. reflexivity. }
    destruct (H [VStr "ab"] (VStr "cd") [] eq_refl) with (whole := VStr "abcd")
      as (w' & first & rest & Hr & Hf & Hs & _ & _ & _ & _ & Hb & _).
    + repeat constructor; discriminate.
    + right. simpl. lia.
    + simpl. lia.
    + reflexivity.
    + vm_compute in Hf, Hs. injection Hf as <-. injection Hs as <-.
      exists w'. split; [exact Hr|exact Hb].
  - destruct (readBytes_accumulates 1%positive two_chunks
                [] [VStr "ab"; VStr "cd"] EndDone 100) as (_ & H & _).
    { vm_compute. reflexivity. }
    destruct H with (whole := VStr "abcd") as (w' & Hr & _ & _ & Hv).
    + discriminate.
    + reflexivity.
    + repeat constructor; discriminate.
    + simpl. lia.
    + reflexivity.
    + exists w'. split; [exact Hr|exact Hv].
Defined.

Lemma peekBytes_then_readBytes_witness :
  (∃ b1 s1, view 1%positive (after (peekBytes 1%positive 3) two_chunks)
              = Some (b1, s1, EndDone) ∧
            content (b1 ++ s1) = content ([] ++ [VStr "ab"; VStr "cd"])) ∧
  (Forall nonempty ([] ++ [VStr "ab"; VStr "cd"]) →
   ∃ w2, readBytes 1%positive 3 (after (peekBytes 1%positive 3) two_chunks)
           = Ok (VStr "abc") w2).
Proof.
  apply (peekBytes_then_readBytes 1%positive two_chunks
           [] [VStr "ab"; VStr "cd"] EndDone 3 (VStr "abc")).
  - vm_compute. reflexivity.
  - vm_compute. reflexivity.
Defined.

Lemma releaseLock_attaches_buffer_witness :
  ∃ w', releaseLock 1%positive two_buffered = Ok tt w' ∧
        attached w' !! 1%positive = Some 1%positive ∧
        arrays w' = arrays two_buffered.
Proof.
  destruct (releaseLock_attaches_buffer 1%positive two_buffered
              (Reader (IStream 1%positive) (Some 1%positive) (SrcHandle 1%positive 1))
              1%positive)
    as (w' & Hrel & Hat & Har & _).
  - vm_compute. reflexivity.
  - reflexivity.
  - exists w'. split; [exact Hrel|]. split; [|exact Har].
    rewrite Hat. simpl. apply lookup_insert_eq.
Defined.

Lemma NodeReadable_read_never_throws_witness :
  surfaced listening (SourceError 7) [Some (VStr "a")] idle_adapter
    (fst (snd (NodeReadable_read recording_push listening idle_adapter 16 failing))) ∧
  surfaced unheard TypeError [Some (VStr "ab")] idle_adapter
    (fst (snd (NodeReadable_read text_push unheard idle_adapter 16 mixed_chunks))) ∧
  fst (NodeReadable_read text_push unheard idle_adapter 16 mixed_chunks) = Normal.
Proof.
  split; [|split].
  - destruct (NodeReadable_read_never_throws recording_push listening
                idle_adapter 16 failing) as (_ & _ & H).
    destruct (H [] [VStr "a"] (EndThrow (SourceError 7))) as (Hsource & _ & _).
    + vm_compute. reflexivity.
    + reflexivity.
    + reflexivity.
    + exact (Hsource (SourceError 7) eq_refl eq_refl).
  - destruct (NodeReadable_read_never_throws text_push unheard
                idle_adapter 16 mixed_chunks) as (_ & _ & H).
    destruct (H [] [VStr "ab"; VBytes [x01%byte]; VStr "cd"] EndDone)
      as (_ & Hpush & _).
    + vm_compute. reflexivity.
    + reflexivity.
    + reflexivity.
    + exact (Hpush [VStr "ab"] (VBytes [x01%byte]) [VStr "cd"] TypeError
               [Some (VStr "ab")] eq_refl eq_refl eq_refl).
  - exact (proj1 (NodeReadable_read_never_throws text_push unheard
                    idle_adapter 16 mixed_chunks)).
Defined.

(** The failing source of [failing]: "a" is pushed, then the source's error
    arrives as an ['error'] event and the promise of the loop is fulfilled. *)
Example failing_source_emits_error :
  snd (NodeReadable_read recording_push listening
         (MkNodeReadable 1%positive 1%positive false false Fulfilled [] []) 16 failing) =
    (MkNodeReadable 1%positive 1%positive true false Fulfilled
                    [Some (VStr "a")] [SourceError 7],
     after (reads 2 1%positive) failing).
Proof. vm_compute. reflexivity. Qed.

(** * Further properties *)

(** ** Pushing back and reading again *)

Lemma filter_kept_all l : Forall nonempty l → List.filter kept l = l.
Proof.
  induction 1 as [|v l Hv _ IH]; [done|]. simpl.
  by rewrite kept_nonempty, IH.
Qed.

Lemma nonempty_is_chunk l : Forall nonempty l → Forall is_chunk l.
Proof. intros H. eapply Forall_impl; [done|]. by intros ? []. Qed.

Lemma content_singleton v : content [v] = units v.
Proof. unfold content. simpl. apply app_nil_r. Qed.

Lemma size_0_of_units v : units v = [] → size v = 0.
Proof. intros H. by rewrite <- length_units, H. Qed.

(** X1. Push-back round trip.  After [unshift(...C)] with present, non-empty
    chunks [C] of one kind, [readBytes] of their total length returns their
    concatenation and leaves the reader as it was before the [unshift]. *)
Theorem unshift_then_readBytes this w b s e C whole :
  view this w = Some (b, s, e) →
  C ≠ [] → Forall nonempty C → concat C = inr whole →
  ∃ w1 w2,
    unshift this C w = Ok tt w1 ∧
    readBytes this (total_length C) w1 = Ok whole w2 ∧
    view this w2 = Some (b, s, e).
Proof.
  intros Hv Hne HC Hw.
  destruct (view_unshift _ _ _ _ _ C Hv) as (w1 & Hu & Hv1).
  rewrite filter_kept_all in Hv1 by done.
  pose proof (readBytes_on_view this (total_length C) w1 _ _ _ Hv1) as Hag.
  destruct (exists_last Hne) as (pre & c & HCeq).
  assert (Forall is_chunk (pre ++ [c])) as Hchunks
    by (rewrite <- HCeq; by apply nonempty_is_chunk).
  assert (0 < size c) as Hc.
  { rewrite HCeq in HC. apply Forall_app in HC as [_ HC].
    by apply Forall_singleton in HC as [_ ?]. }
  assert ((C ++ b) ++ s = pre ++ c :: (b ++ s)) as Hl
    by (rewrite HCeq, <- !app_assoc; done).
  rewrite Hl in Hag.
  rewrite (readBytes_on_enough (total_length C) pre c (b ++ s) e [] 0) in Hag.
  2: done.
  2:{ right. rewrite HCeq, total_length_app. simpl. lia. }
  2:{ rewrite HCeq. simpl. lia. }
  cbn [app] in Hag. rewrite <- HCeq, Hw in Hag.
  apply concat_inr in Hw as (Hwc & Hsz & _); [|done|by apply nonempty_is_chunk].
  destruct (slice_chunk whole (total_length C) Hwc)
    as (first & rest & _ & Hr & _ & _ & _ & Hur).
  rewrite Hr, slice_all in Hag by (done || lia).
  rewrite filter_kept_empty in Hag.
  2:{ apply size_0_of_units. rewrite Hur. apply drop_ge.
      rewrite length_units. lia. }
  apply agrees_Returns in Hag as (w2 & Hrb & Hv2).
  exists w1, w2. split_and!; try done.
  rewrite Hv2. cbn [app].
  replace (S (length pre)) with (length C)
    by (rewrite HCeq, length_app; simpl; lia).
  rewrite drop_app_length, length_app.
  by replace (length C - (length C + length b)) with 0 by lia.
Qed.

(** X2. Reading and pushing back.  A present, non-empty chunk that [read]
    returned and that is pushed back at once is the next chunk again, and
    the chunks ahead of the reader are the same as before. *)
Theorem read_then_unshift this w b s e v l :
  view this w = Some (b, s, e) → b ++ s = v :: l → nonempty v →
  ∃ w1 w2 b2 s2,
    read this w = Ok (Result false v) w1 ∧
    unshift this [v] w1 = Ok tt w2 ∧
    view this w2 = Some (b2, s2, e) ∧ b2 ++ s2 = b ++ s ∧
    buffered this w2 = v :: drop 1 b.
Proof.
  intros Hv Hl Hne.
  destruct (view_read_ahead _ _ _ _ _ _ _ Hv Hl) as (w1 & Hr & Hv1).
  destruct (view_unshift _ _ _ _ _ [v] Hv1) as (w2 & Hu & Hv2).
  rewrite filter_kept_nonempty in Hv2 by done.
  eexists w1, w2, _, _. split_and!; try done.
  - rewrite Hl. destruct b as [|v' b]; simpl in *.
    + by subst s.
    + injection Hl as -> <-. by rewrite !drop_0.
  - by apply view_Some in Hv2 as (r & _ & ? & _).
Qed.

(** ** What [readBytes] keeps *)

(** X3. [readBytes(n)] neither loses nor invents data: the units it returns,
    followed by the units left ahead of the reader, are the units that were
    ahead before.  It returns at most [n] units, and fewer than [n] only when
    the source has terminated and nothing is left. *)
Theorem readBytes_conserves this w b s e n v w' :
  view this w = Some (b, s, e) →
  readBytes this n w = Ok v w' →
  ∃ b' s',
    view this w' = Some (b', s', e) ∧
    units v ++ content (b' ++ s') = content (b ++ s) ∧
    size v ≤ n ∧
    (size v = n ∨ (e = EndDone ∧ b' = [] ∧ s' = [])).
Proof.
  intros Hv Hr. pose proof (readBytes_on_view this n w _ _ _ Hv) as Hag.
  destruct (readBytes_on n [] 0 (b ++ s) e) as [v' k pushed|x] eqn:Hon.
  2:{ destruct Hag as (w1 & Hr'). congruence. }
  destruct Hag as (w1 & Hr' & Hv'). rewrite Hr in Hr'. injection Hr' as <- <-.
  eexists _, _. split; [done|].
  pose proof (readBytes_on_content _ _ _ _ _ _ Hon) as Hc.
  rewrite content_app, content_filter_kept, content_singleton in Hc.
  split; [by rewrite <- app_assoc, <- drop_app|].
  apply readBytes_on_Returns in Hon
    as [(-> & -> & -> & Hch & Hn & Hacc)|
        (whole & rest & Hk & Hch & Hn & Hw & Hrest & Hf & ->)]; cbn [app] in *.
  - assert (size v ≤ n ∧ (size v = n ∨ True)) as [? _].
    { destruct (b ++ s) as [|c l] eqn:Hl; [subst v; simpl; split; [lia|auto]|].
      apply concat_inr in Hacc as (_ & -> & _); [|done..].
      destruct Hn as [|Hn]; [done|]. split; [lia|auto]. }
    split; [done|]. right.
    rewrite length_app, !drop_ge by lia. done.
  - assert (take k (b ++ s) ≠ []) as Hne.
    { destruct (b ++ s), k; simpl in *; try done; lia. }
    apply concat_inr in Hw as (_ & Hsz & _); [|done..].
    apply slice_first_size in Hf. split; [lia|left; lia].
Qed.

(** ** Single units *)



(** ** Reading everything *)

Lemma readToEnd_loop_throw this x l :
  ∀ fuel b s w result,
    view this w = Some (b, s, EndThrow x) → b ++ s = l → length l < fuel →
    ∃ w', readToEnd_loop fuel this result w = Throw x w' ∧
          view this w' = Some ([], [], EndThrow x).
Proof.
  induction l as [|v l IH]; intros fuel b s w result Hv Hl Hf;
    (destruct fuel as [|fuel]; [simpl in Hf; lia|]); cbn [readToEnd_loop].
  - apply app_eq_nil in Hl as [-> ->].
    erewrite bind_Throw by (by apply view_read_throw). eauto.
  - destruct (view_read_ahead _ _ _ _ _ _ _ Hv Hl) as (w1 & Hr & Hv1).
    erewrite bind_Ok by done. simpl.
    apply (IH fuel _ _ w1 (result ++ [v]) Hv1); [|simpl in Hf; lia].
    destruct b; simpl in *; [by subst|]. rewrite !drop_0. congruence.
Qed.

(** X5. [readToEnd(join)] hands [join] every chunk ahead of the reader, the
    buffered ones first, in order, and leaves nothing ahead; when the source
    fails, the failure is passed on, [join] is not consulted and the chunks
    taken so far are gone. *)
Theorem readToEnd_collects {A} this w b s e (join : list val → exn + A) :
  view this w = Some (b, s, e) →
  ∃ w',
    view this w' = Some ([], [], e) ∧
    readToEnd this join w =
      match e with
      | EndDone => lift (join (b ++ s)) w'
      | EndThrow x => Throw x w'
      end.
Proof.
  intros Hv. unfold readToEnd. erewrite bind_Ok by reflexivity.
  assert (length (b ++ s) < enough_fuel this w) as Hf.
  { unfold enough_fuel. erewrite view_ahead by done. lia. }
  destruct e as [|x].
  - destruct (readToEnd_loop_view this _ _ _ _ w [] Hv eq_refl Hf)
      as (w' & Hloop & Hv').
    exists w'. split; [done|]. by erewrite bind_Ok.
  - destruct (readToEnd_loop_throw this x _ _ _ _ w [] Hv eq_refl Hf)
      as (w' & Hloop & Hv').
    exists w'. split; [done|]. by erewrite bind_Throw.
Qed.

(** ** Sequences of reads *)

Lemma reads_ahead this l :
  ∀ b s w k,
    view this w = Some (b, s, EndDone) → b ++ s = l →
    ∃ w', reads (length l + k) this w =
            Ok ((Result false <$> l) ++ replicate k (Result true VUndef)) w' ∧
          view this w' = Some ([], [], EndDone).
Proof.
  induction l as [|v l IH]; intros b s w k Hv Hl.
  - apply app_eq_nil in Hl as [-> ->]. simpl.
    revert w Hv. induction k as [|k IHk]; intros w Hv; simpl; [eauto|].
    erewrite bind_Ok by (by apply view_read_done).
    destruct (IHk (emit_event (EvPull this) w)) as (w' & Hk & Hv'); [done|].
    erewrite bind_Ok by done. eauto.
  - destruct (view_read_ahead _ _ _ _ _ _ _ Hv Hl) as (w1 & Hr & Hv1).
    destruct (IH _ _ w1 k Hv1) as (w' & Hk & Hv').
    { destruct b; simpl in *; [by subst|]. rewrite !drop_0. congruence. }
    simpl. erewrite bind_Ok by done. erewrite bind_Ok by done. eauto.
Qed.

(** X6. Successive calls of [read] on a reader whose source terminates return
    the buffered chunks, then the chunks of the source, each once and in
    order, and [done] from then on. *)
Theorem reads_in_order this w b s k :
  view this w = Some (b, s, EndDone) →
  ∃ w', reads (length (b ++ s) + k) this w =
          Ok ((Result false <$> (b ++ s)) ++ replicate k (Result true VUndef)) w'.
Proof.
  intros Hv. destruct (reads_ahead this _ _ _ w k Hv eq_refl) as (w' & ? & _).
  eauto.
Qed.

(** X7. A value that is not a stream is delivered exactly once: a reader built
    over a value that is not in the registry and carries no attached buffer
    returns the value on its first [read] and [done] on every later one. *)
Theorem scalar_is_read_once x w k :
  input_buffer (IScalar x) w = None →
  doneReadingSet_has x w = false →
  ∃ this w1 w2,
    Reader_new (IScalar x) w = Ok this w1 ∧
    reads (S k) this w1 =
      Ok (Result false (scalar_value x) :: replicate k (Result true VUndef)) w2.
Proof.
  intros Hin Hhas.
  destruct (Reader_new_scalar x w)
    as (this & w1 & buf & Hnew & Hr & _ & Hd & _ & Hb).
  rewrite Hin in Hb.
  pose proof (view_intro _ _ _ Hr) as Hv. rewrite Hb in Hv. simpl in Hv.
  unfold doneReadingSet_has in *. rewrite Hd in Hv. rewrite Hhas in Hv.
  destruct (reads_ahead this _ _ _ w1 k Hv eq_refl) as (w2 & Hk & _).
  exists this, w1, w2. split; [done|]. exact Hk.
Qed.

(** ** A source that fails *)

Lemma readBytes_loop_throw this length x l :
  ∀ fuel b s w buffer bufferLength,
    view this w = Some (b, s, EndThrow x) → b ++ s = l →
    List.length l < fuel → Forall is_chunk l →
    l = [] ∨ bufferLength + total_length l < length →
    ∃ w', readBytes_loop fuel this length buffer bufferLength w = Throw x w' ∧
          view this w' = Some ([], [], EndThrow x).
Proof.
  induction l as [|v l IH]; intros fuel b s w buffer bufferLength Hv Hl Hf Hc Hn;
    (destruct fuel as [|fuel]; [simpl in Hf; lia|]); cbn [readBytes_loop].
  - apply app_eq_nil in Hl as [-> ->].
    erewrite bind_Throw by (by apply view_read_throw). eauto.
  - destruct Hn as [|Hn]; [done|]. simpl in Hn.
    apply Forall_cons in Hc as [Hv0 Hc].
    destruct (view_read_ahead _ _ _ _ _ _ _ Hv Hl) as (w1 & Hr & Hv1).
    erewrite bind_Ok by done. simpl.
    rewrite length_of_chunk by done. unfold bind at 1. simpl.
    destruct (Nat.leb_spec length (bufferLength + size v)) as [|_]; [lia|].
    apply (IH fuel _ _ w1 _ _ Hv1); [|simpl in Hf; lia|done|].
    + destruct b; simpl in *; [by subst|]. rewrite !drop_0. congruence.
    + destruct l; [by left|right; simpl in *; lia].
Qed.

(** X8. When the source fails before [n] units have accumulated, [readBytes(n)]
    fails with the error of the source, and the chunks it had taken, the
    buffered ones included, are not put back. *)
Theorem readBytes_source_failure this w b s x n :
  view this w = Some (b, s, EndThrow x) →
  Forall is_chunk (b ++ s) →
  b ++ s = [] ∨ total_length (b ++ s) < n →
  ∃ w', readBytes this n w = Throw x w' ∧
        view this w' = Some ([], [], EndThrow x).
Proof.
  intros Hv Hc Hn. unfold readBytes. erewrite bind_Ok by reflexivity.
  apply (readBytes_loop_throw this n x _ _ _ _ w [] 0 Hv eq_refl); try done.
  unfold enough_fuel. erewrite view_ahead by done. lia.
Qed.

(** ** Releasing *)

(** X9. A reader over a primitive string can be released as long as it has no
    buffer array, and the registry is left alone; once it has called
    [unshift], even with nothing to keep, [releaseLock] throws a [TypeError]
    (the buffer cannot be attached to a primitive) and the underlying
    release is not reached. *)
Theorem releaseLock_on_string this w r str d values :
  readers w !! this = Some r →
  r_stream r = IScalar (SStr str) →
  r_source r = SrcOneShot (SStr str) d →
  (r_externalBuffer r = None →
   releaseLock this w = Ok tt (emit_event (EvRelease this) w)) ∧
  ∃ w1, unshift this values w = Ok tt w1 ∧
        releaseLock this w1 = Throw TypeError w1.
Proof.
  intros Hr Hi Hs. split.
  - intros Hb. unfold releaseLock, _releaseLock. run.
    rewrite Hr; simpl. rewrite Hb; simpl. rewrite Hr; simpl. rewrite Hs; simpl.
    by destruct d.
  - unfold unshift, releaseLock, new_array. run. rewrite Hr; simpl.
    destruct (r_externalBuffer r) as [a|] eqn:Hb; simpl.
    + eexists; split; [done|]. simpl. rewrite Hr; simpl. rewrite Hb; simpl.
      by rewrite Hi.
    + eexists; split; [done|]. simpl. rewrite lookup_insert_eq; simpl.
      by rewrite Hi.
Qed.

Lemma array_contents_copy a a' w :
  array_contents a (set_arrays <[a' := array_contents a w]> w) = array_contents a w.
Proof.
  unfold array_contents at 1; simpl. rewrite lookup_insert.
  by case_decide; subst.
Qed.

(** X10. Time-sharing a stream.  When the reader that holds the lock of a stream
    is released and a new reader is built over the same stream, the new
    reader has ahead of it exactly what the old one had: the leftover
    buffer, then the rest of the stream.  The old reader keeps its buffer
    but has lost the stream: past the buffer its [read] fails. *)
Theorem release_then_reacquire this w r st h stm b s e :
  readers w !! this = Some r →
  r_stream r = IStream st → r_source r = SrcHandle st h →
  streams w !! st = Some stm → holds stm h = true →
  (r_externalBuffer r = None → attached w !! st = None) →
  view this w = Some (b, s, e) →
  ∃ w1 this2 w2,
    releaseLock this w = Ok tt w1 ∧
    Reader_new (IStream st) w1 = Ok this2 w2 ∧
    view this2 w2 = Some (b, s, e) ∧
    view this w2 = Some (b, [], EndThrow TypeError).
Proof.
  intros Hr Hi Hs Hst Hh Hat Hv.
  apply view_Some in Hv as (r' & Hr' & Hb & Hsa & He).
  rewrite Hr in Hr'. injection Hr' as <-.
  rewrite Hs in Hsa, He. simpl in Hsa, He. rewrite Hst, Hh in Hsa, He.
  unfold buffered in Hb. rewrite Hr in Hb.
  assert (fresh (dom (readers w)) ≠ this) as Hfresh.
  { intros Heq. apply (is_fresh (dom (readers w))). rewrite Heq.
    apply elem_of_dom. eauto. }
  assert ((gen stm =? h) = true) as Hgen
    by (unfold holds in Hh; by apply andb_prop in Hh as [_ ?]).
  apply Nat.eqb_eq in Hgen.
  assert (holds (Stream (queue stm) (ends stm) true (S (gen stm))) h = false) as Hold.
  { unfold holds. cbn [locked gen]. rewrite andb_true_l. apply Nat.eqb_neq. lia. }
  unfold releaseLock, _releaseLock, handle_releaseLock, Reader_new, getReader,
    new_array, new_object, input_buffer.
  run. rewrite Hr; simpl. rewrite Hi; simpl.
  destruct (r_externalBuffer r) as [a|] eqn:Hbuf; simpl.
  - rewrite Hr; simpl. rewrite Hs; simpl. rewrite Hst, Hh; simpl.
    eexists _, _, _. split; [reflexivity|]. simpl.
    rewrite !lookup_insert_eq; simpl. rewrite !lookup_insert_eq; simpl.
    split; [reflexivity|]. split.
    + erewrite view_intro by (simpl; apply lookup_insert_eq). simpl.
      rewrite lookup_insert_eq. unfold holds; simpl. rewrite Nat.eqb_refl; simpl.
      unfold buffered; simpl. rewrite lookup_insert_eq; simpl.
      unfold array_contents at 1; simpl. rewrite lookup_insert_eq; simpl.
      fold (array_contents a w). by subst.
    + erewrite view_intro by (simpl; rewrite lookup_insert_ne by done; exact Hr).
      rewrite Hs; simpl. rewrite lookup_insert_eq, Hold.
      unfold buffered; simpl. rewrite lookup_insert_ne, Hr, Hbuf by done.
      fold (array_contents a w).
      change (array_contents a _) with
        (array_contents a (set_arrays <[fresh (dom (arrays w)) := array_contents a w]> w)).
      by rewrite array_contents_copy, Hb.
  - rewrite Hr; simpl. rewrite Hs; simpl. rewrite Hst, Hh; simpl.
    eexists _, _, _. split; [reflexivity|]. simpl.
    rewrite (Hat eq_refl); simpl.
    rewrite !lookup_insert_eq; simpl. split; [reflexivity|]. split.
    + erewrite view_intro by (simpl; apply lookup_insert_eq). simpl.
      rewrite lookup_insert_eq. unfold holds; simpl. rewrite Nat.eqb_refl; simpl.
      unfold buffered; simpl. rewrite lookup_insert_eq; simpl. by subst.
    + erewrite view_intro by (simpl; rewrite lookup_insert_ne by done; exact Hr).
      rewrite Hs; simpl. rewrite lookup_insert_eq, Hold.
      unfold buffered; simpl. rewrite lookup_insert_ne, Hr, Hbuf by done.
      by subst.
Qed.

(** ** Concatenating byte arrays *)

Lemma bind_bytes_of bs : (VBytes <$> bs) ≫= bytes_of = List.concat bs.
Proof.
  induction bs as [|b bs IH]; [done|]. by rewrite fmap_cons, bind_cons, IH.
Qed.

Lemma forallb_isUint8Array_bytes bs : forallb isUint8Array (VBytes <$> bs) = true.
Proof. by induction bs. Qed.

(** X11. [concatUint8Array] joins byte arrays in order; a list of one element is
    returned as it is, whatever the element; any other list with an element
    that is not a byte array is refused, and the empty list gives the empty
    array. *)
Theorem concatUint8Array_cases :
  (∀ bs, concatUint8Array (VBytes <$> bs) = inr (VBytes (List.concat bs))) ∧
  (∀ x, concatUint8Array [x] = inr x) ∧
  (∀ arrays x, length arrays ≠ 1 → x ∈ arrays → isUint8Array x = false →
               concatUint8Array arrays = inl MalformedInput).
Proof.
  split_and!.
  - intros bs. unfold concatUint8Array.
    destruct bs as [|b [|b' bs]]; [done|simpl; by rewrite app_nil_r|].
    transitivity
      (if forallb isUint8Array (VBytes <$> b :: b' :: bs)
       then inr (VBytes ((VBytes <$> b :: b' :: bs) ≫= bytes_of))
       else inl MalformedInput : exn + val); [done|].
    by rewrite forallb_isUint8Array_bytes, bind_bytes_of.
  - done.
  - intros arrays x Hlen Hx Hnot. unfold concatUint8Array.
    assert (forallb isUint8Array arrays = false) as ->.
    { apply not_true_is_false. intros Hall.
      rewrite forallb_forall in Hall. apply list_elem_of_In in Hx.
      specialize (Hall x Hx). congruence. }
    by destruct arrays as [|? [|??]].
Qed.

(** ** Lines *)

Lemma indexOf_bounds c s : (-1 ≤ indexOf c s < Z.of_nat (String.length s))%Z.
Proof.
  induction s as [|d s IH]; simpl; [lia|].
  destruct (Ascii.eqb d c); [lia|].
  destruct (Z.ltb_spec (indexOf c s) 0); lia.
Qed.

Lemma indexOf_append c s1 s2 :
  indexOf c (str_append s1 s2) =
    if (0 <=? indexOf c s1)%Z then indexOf c s1
    else if (0 <=? indexOf c s2)%Z
         then (Z.of_nat (String.length s1) + indexOf c s2)%Z
         else (-1)%Z.
Proof.
  induction s1 as [|d s1 IH]; simpl.
  - pose proof (indexOf_bounds c s2).
    destruct (Z.leb_spec 0 (indexOf c s2)); lia.
  - destruct (Ascii.eqb d c); [done|]. rewrite IH.
    pose proof (indexOf_bounds c s1). pose proof (indexOf_bounds c s2).
    destruct (Z.leb_spec 0 (indexOf c s1)), (Z.leb_spec 0 (indexOf c s2));
      repeat match goal with
             | |- context [(?x <? 0)%Z] => destruct (Z.ltb_spec x 0)
             | |- context [(0 <=? ?x)%Z] => destruct (Z.leb_spec 0 x)
             end; lia.
Qed.

Lemma str_append_assoc s1 s2 s3 :
  str_append (str_append s1 s2) s3 = str_append s1 (str_append s2 s3).
Proof. induction s1; simpl; by f_equal. Qed.

Lemma str_take_append_le n s1 s2 :
  n ≤ String.length s1 → str_take n (str_append s1 s2) = str_take n s1.
Proof.
  revert s1. induction n as [|n IH]; intros [|c s1] Hn; simpl in *;
    try done; try lia; try (by destruct s2).
  f_equal. apply IH. lia.
Qed.

Lemma str_take_append_ge n s1 s2 :
  str_take (String.length s1 + n) (str_append s1 s2) = str_append s1 (str_take n s2).
Proof. induction s1; simpl; by f_equal. Qed.

Lemma str_drop_append_le n s1 s2 :
  n ≤ String.length s1 →
  str_drop n (str_append s1 s2) = str_append (str_drop n s1) s2.
Proof.
  revert s1. induction n as [|n IH]; intros [|c s1] Hn; simpl in *;
    try done; try lia.
  apply IH. lia.
Qed.

Lemma str_drop_append_ge n s1 s2 :
  str_drop (String.length s1 + n) (str_append s1 s2) = str_drop n s2.
Proof. induction s1; simpl; [by destruct n|done]. Qed.

Lemma length_str_drop n s : String.length (str_drop n s) = String.length s - n.
Proof. revert s. induction n; intros [|c s]; simpl; try done. Qed.

Lemma str_append_empty s1 s2 : str_append s1 s2 = EmptyString → s2 = EmptyString.
Proof. by destruct s1. Qed.

Lemma join_app l1 l2 : join (l1 ++ l2) = str_append (join l1) (join l2).
Proof.
  unfold join. induction l1 as [|f l1 IH]; [done|]. simpl.
  by rewrite IH, str_append_assoc.
Qed.

Lemma text_ahead_app l1 l2 :
  text_ahead (l1 ++ l2) = str_append (text_ahead l1) (text_ahead l2).
Proof. unfold text_ahead. by rewrite fmap_app, join_app. Qed.

Lemma text_ahead_cons v l :
  text_ahead (v :: l) = str_append (to_text v) (text_ahead l).
Proof. done. Qed.

(** Fragments of text always concatenate. *)
Lemma concat_texts frags :
  frags ≠ [] → concat (VStr <$> frags) = inr (VStr (join frags)).
Proof.
  destruct frags as [|f frags]; [done|]. intros _. unfold concat.
  rewrite fmap_cons.
  assert (forallb isString (VStr f :: (VStr <$> frags)) = true) as ->.
  { simpl. by induction frags. }
  do 3 f_equal. rewrite <- fmap_cons. generalize (f :: frags). intros l.
  induction l as [|x l IH]; [done|]. rewrite !fmap_cons. simpl. by f_equal.
Qed.

Lemma line_or_undefined_nonempty t : t ≠ EmptyString → line_or_undefined t = VStr t.
Proof. by destruct t. Qed.

Lemma join_nonempty f frags :
  f ≠ EmptyString → join (f :: frags) ≠ EmptyString.
Proof. destruct f; [done|]. by intros _. Qed.

Lemma readLine_loop_found fuel this frags w v w1 :
  read this w = Ok (Result false v) w1 →
  (0 ≤ indexOf newline (to_text v))%Z →
  readLine_loop (S fuel) this (VStr <$> frags) w =
    (let t := to_text v in
     let k := Z.to_nat (indexOf newline t + 1) in
     unshift this (if (Z.of_nat k =? Z.of_nat (String.length t))%Z then []
                   else [VStr (str_drop k t)]);;;
     ret (VStr (str_append (join frags) (str_take k t)))) w1.
Proof.
  intros Hr Hi. cbn [readLine_loop]. erewrite bind_Ok by done.
  cbn [done value]. cbv zeta.
  set (t := to_text v) in *. set (i := indexOf newline t) in *.
  pose proof (indexOf_bounds newline t) as Hbt. fold i in Hbt.
  destruct (Z.eqb_spec (i + 1) 0) as [|_]; [lia|].
  replace ((VStr <$> frags) ++ [VStr (substr t 0 (Some (Z.to_nat (i + 1))))])
    with (VStr <$> (frags ++ [str_take (Z.to_nat (i + 1)) t]))
    by (by rewrite fmap_app).
  unfold bind at 1 2. rewrite concat_texts by (by destruct frags).
  rewrite join_app. unfold join at 2. cbn [foldr]. rewrite append_empty_r.
  cbn [lift ret fst snd substr app].
  assert (truthy (VStr (str_append (join frags) (str_take (Z.to_nat (i + 1)) t)))
          = true) as ->.
  { destruct (str_append _ _) eqn:E; [|done].
    apply str_append_empty in E. destruct t; [simpl in *; lia|].
    replace (Z.to_nat (i + 1)) with (S (Z.to_nat i)) in E by lia. done. }
  by rewrite Z2Nat.id by lia.
Qed.

Lemma readLine_loop_not_found fuel this frags w v w1 :
  read this w = Ok (Result false v) w1 →
  indexOf newline (to_text v) = (-1)%Z →
  readLine_loop (S fuel) this (VStr <$> frags) w =
    readLine_loop fuel this
      (VStr <$> (if (0 =? Z.of_nat (String.length (to_text v)))%Z then frags
                 else frags ++ [to_text v])) w1.
Proof.
  intros Hr Hi. cbn [readLine_loop]. erewrite bind_Ok by done.
  cbn [done value]. cbv zeta. rewrite Hi.
  change (-1 + 1)%Z with 0%Z. change (0 =? 0)%Z with true. cbv iota.
  unfold bind at 1. cbn [ret fst snd truthy]. cbv iota.
  destruct (0 =? _)%Z; [done|]. by rewrite fmap_app.
Qed.

Lemma readLine_loop_on this l :
  ∀ fuel b s e w frags,
    view this w = Some (b, s, e) → b ++ s = l → length l < fuel →
    Forall (λ f, f ≠ EmptyString) frags →
    indexOf newline (join frags) = (-1)%Z →
    if (0 <=? indexOf newline (text_ahead l))%Z then
      ∃ w' b' s',
        readLine_loop fuel this (VStr <$> frags) w =
          Ok (VStr (str_append (join frags)
                      (str_take (Z.to_nat (indexOf newline (text_ahead l) + 1))
                                (text_ahead l)))) w' ∧
        view this w' = Some (b', s', e) ∧
        text_ahead (b' ++ s') =
          str_drop (Z.to_nat (indexOf newline (text_ahead l) + 1)) (text_ahead l)
    else
      ∃ w',
        view this w' = Some ([], [], e) ∧
        readLine_loop fuel this (VStr <$> frags) w =
          match e with
          | EndDone =>
              Ok (line_or_undefined (str_append (join frags) (text_ahead l))) w'
          | EndThrow x => Throw x w'
          end.
Proof.
  induction l as [|v l IH]; intros fuel b s e w frags Hv Hl Hf Hne Hnl;
    (destruct fuel as [|fuel]; [simpl in Hf; lia|]).
  - cbn [readLine_loop].
    apply app_eq_nil in Hl as [-> ->]. simpl. destruct e as [|x].
    + erewrite bind_Ok by (by apply view_read_done). simpl.
      eexists; split; [by rewrite view_emit_event|].
      rewrite append_empty_r. destruct frags as [|f frags]; [done|].
      rewrite fmap_cons. cbn [lift]. rewrite <- fmap_cons.
      rewrite concat_texts by done. simpl.
      rewrite line_or_undefined_nonempty; [done|].
      apply Forall_cons in Hne as [? _]. by apply join_nonempty.
    + erewrite bind_Throw by (by apply view_read_throw).
      eexists; split; [by rewrite view_emit_event|done].
  - destruct (view_read_ahead _ _ _ _ _ _ _ Hv Hl) as (w1 & Hr & Hv1).
    assert (drop 1 b ++ drop (1 - length b) s = l) as Hl1.
    { destruct b; simpl in *; [by subst|]. rewrite !drop_0. congruence. }
    rewrite text_ahead_cons.
    set (t := to_text v). set (T := text_ahead l).
    pose proof (indexOf_bounds newline t) as Hbt.
    pose proof (indexOf_bounds newline T) as HbT.
    pose proof (indexOf_append newline t T) as Happ.
    destruct (Z.leb_spec 0 (indexOf newline t)) as [Hfound|Hnot].
    + (* the line ends in this chunk *)
      rewrite Happ. destruct (Z.leb_spec 0 (indexOf newline t)); [|lia].
      rewrite (readLine_loop_found _ _ _ _ _ _ Hr Hfound). cbv zeta.
      fold t. set (k := Z.to_nat (indexOf newline t + 1)).
      assert (k ≤ String.length t) as Hk by lia.
      rewrite str_take_append_le, str_drop_append_le by done.
      destruct (Z.eqb_spec (Z.of_nat k) (Z.of_nat (String.length t)))
        as [Heq|Hneq].
      * destruct (view_unshift _ _ _ _ _ [] Hv1) as (w2 & Hu & Hv2).
        erewrite bind_Ok by done.
        eexists _, _, _. split_and!; try done.
        cbn [List.filter app]. rewrite Hl1.
        replace (str_drop k t) with EmptyString; [done|].
        assert (String.length (str_drop k t) = 0) by (rewrite length_str_drop; lia).
        by destruct (str_drop k t).
      * destruct (view_unshift _ _ _ _ _ [VStr (str_drop k t)] Hv1)
          as (w2 & Hu & Hv2).
        erewrite bind_Ok by done.
        eexists _, _, _. split_and!; try done.
        rewrite filter_kept_nonempty.
        2:{ split; [done|]. simpl. rewrite length_str_drop. lia. }
        rewrite <- app_assoc, Hl1. cbn [app].
        by rewrite text_ahead_cons.
    + (* no newline in this chunk *)
      assert (indexOf newline t = (-1)%Z) as Hi by lia.
      rewrite (readLine_loop_not_found _ _ _ _ _ _ Hr Hi). fold t.
      set (frags2 := if (0 =? Z.of_nat (String.length t))%Z then frags
                     else frags ++ [t]).
      assert (join frags2 = str_append (join frags) t) as Hj.
      { unfold frags2. destruct (Z.eqb_spec 0 (Z.of_nat (String.length t))).
        - destruct t; [by rewrite append_empty_r|simpl in *; lia].
        - rewrite join_app. unfold join at 2. cbn [foldr].
          by rewrite append_empty_r. }
      assert (Forall (λ f, f ≠ EmptyString) frags2) as Hne2.
      { unfold frags2. destruct (Z.eqb_spec 0 (Z.of_nat (String.length t))); [done|].
        apply Forall_app. split; [done|]. apply Forall_singleton.
        intros E. rewrite E in *. simpl in *. lia. }
      assert (indexOf newline (join frags2) = (-1)%Z) as Hnl2.
      { by rewrite Hj, indexOf_append, Hnl, Hi. }
      specialize (IH fuel _ _ e w1 frags2 Hv1 Hl1 ltac:(simpl in Hf; lia) Hne2 Hnl2).
      fold T in IH. rewrite Happ.
      destruct (Z.leb_spec 0 (indexOf newline t)); [lia|].
      destruct (Z.leb_spec 0 (indexOf newline T)) as [HT|HT].
      * destruct IH as (w' & b' & s' & Hloop & Hv' & Htext).
        destruct (Z.leb_spec 0 (Z.of_nat (String.length t) + indexOf newline T));
          [|lia].
        replace (Z.to_nat (Z.of_nat (String.length t) + indexOf newline T + 1))
          with (String.length t + Z.to_nat (indexOf newline T + 1)) by lia.
        rewrite str_take_append_ge, str_drop_append_ge.
        exists w', b', s'. split_and!; [|done|done].
        by rewrite Hloop, Hj, str_append_assoc.
      * destruct IH as (w' & Hv' & Hloop).
        change (0 <=? -1)%Z with false. cbv iota.
        exists w'. split; [done|].
        by rewrite Hloop, Hj, str_append_assoc.
Qed.

(** X12. [readLine] returns the text ahead up to and including its first
    newline, however that text is cut into chunks (each chunk is taken as
    the text [value + ''] makes of it), and leaves exactly the text after
    that newline to be read next.  When the text ahead holds no newline,
    the reader is drained: a source that ends gives all the text, or
    undefined when there is none, and a source that fails gives its
    error. *)
Theorem readLine_first_line this w b s e :
  view this w = Some (b, s, e) →
  let T := text_ahead (b ++ s) in
  let k := Z.to_nat (indexOf newline T + 1) in
  if (0 <=? indexOf newline T)%Z then
    ∃ w' b' s',
      readLine this w = Ok (VStr (str_take k T)) w' ∧
      view this w' = Some (b', s', e) ∧
      text_ahead (b' ++ s') = str_drop k T
  else
    ∃ w',
      view this w' = Some ([], [], e) ∧
      readLine this w =
        match e with
        | EndDone => Ok (line_or_undefined T) w'
        | EndThrow x => Throw x w'
        end.
Proof.
  intros Hv T k. unfold readLine. erewrite bind_Ok by reflexivity.
  pose proof (enough_fuel_enough this w) as Hf.
  rewrite (view_ahead _ _ _ _ _ Hv) in Hf.
  exact (readLine_loop_on this (b ++ s) _ b s e w [] Hv eq_refl Hf
           (Forall_nil_2 _) eq_refl).
Qed.

(** ** The adapter, chunk by chunk *)

Section NodeReadable_further.

Context {Sink : Type}.
Variable push : option val → Sink → (exn + bool) * Sink.
Variable emit_error : exn → Sink → option exn * Sink.







End NodeReadable_further.

(** ** One value, several readers *)

Lemma Reader_new_plain x w :
  input_buffer (IScalar x) w = None →
  ∃ this w1,
    Reader_new (IScalar x) w = Ok this w1 ∧
    readers w1 !! this = Some (Reader (IScalar x) None (SrcOneShot x false)) ∧
    attached w1 = attached w ∧ doneReadingSet w1 = doneReadingSet w.
Proof.
  intros Hin. unfold Reader_new, new_object. run. rewrite Hin; simpl.
  eexists _, _. split; [done|]. simpl. by rewrite lookup_insert_eq.
Qed.

Lemma read_fresh_scalar this w x :
  readers w !! this = Some (Reader (IScalar x) None (SrcOneShot x false)) →
  doneReadingSet_has x w = false →
  ∃ w', read this w = Ok (Result false (scalar_value x)) w'.
Proof.
  intros Hr Hhas. pose proof (view_intro _ _ _ Hr) as Hv.
  unfold buffered in Hv. rewrite Hr in Hv. simpl in Hv. rewrite Hhas in Hv.
  destruct (view_read_ahead _ _ _ _ _ _ _ Hv eq_refl) as (w' & Hrd & _). eauto.
Qed.

(** X16. A reader of a single value that is released before anything was
    read from it leaves the value readable: the next reader of the same
    value delivers it. *)
Theorem unread_scalar_stays_readable x w :
  input_buffer (IScalar x) w = None →
  doneReadingSet_has x w = false →
  ∃ first w1 w2 second w3 w4,
    Reader_new (IScalar x) w = Ok first w1 ∧
    releaseLock first w1 = Ok tt w2 ∧
    Reader_new (IScalar x) w2 = Ok second w3 ∧
    read second w3 = Ok (Result false (scalar_value x)) w4.
Proof.
  intros Hin Hhas.
  destruct (Reader_new_plain x w Hin) as (r1 & w1 & Hnew & Hr1 & Hat1 & Hd1).
  assert (releaseLock r1 w1 = Ok tt (emit_event (EvRelease r1) w1)) as Hrel.
  { unfold releaseLock, _releaseLock. run. rewrite Hr1; simpl. by rewrite Hr1. }
  destruct (Reader_new_plain x (emit_event (EvRelease r1) w1))
    as (r2 & w3 & Hnew2 & Hr2 & Hat2 & Hd2).
  { unfold input_buffer in *. simpl. by rewrite Hat1. }
  destruct (read_fresh_scalar r2 w3 x Hr2) as (w4 & Hrd).
  { unfold doneReadingSet_has in *. rewrite Hd2. simpl. by rewrite Hd1. }
  by exists r1, w1, (emit_event (EvRelease r1) w1), r2, w3, w4.
Qed.

(** X17. A string is never marked as exhausted.  Wrap a string, read it to
    the end, release the reader and wrap the same string again: the second
    reader delivers the whole string once more, in every store. *)
Theorem string_is_read_by_every_reader str w :
  ∃ w', wrap_twice (SStr str) w = Ok (Result false (VStr str)) w'.
Proof.
  set (x := SStr str). unfold wrap_twice.
  destruct (Reader_new_plain x w eq_refl) as (r1 & w1 & Hnew & Hr1 & Hat1 & Hd1).
  erewrite bind_Ok by done.
  pose proof (view_intro _ _ _ Hr1) as Hv1.
  unfold buffered in Hv1. rewrite Hr1 in Hv1. simpl in Hv1.
  destruct (readToEnd_loop_view r1 _ (enough_fuel r1 w1) _ _ w1 [] Hv1 eq_refl)
    as (w2 & Hloop & Hv2).
  { unfold enough_fuel. erewrite view_ahead by done. simpl. lia. }
  pose proof (readToEnd_loop_same_reader r1 (IScalar x) None x
                (attached w1) (doneReadingSet w1) (enough_fuel r1 w1) [] w1) as Hs.
  rewrite Hloop in Hs. destruct Hs as (Hat2 & Hd2 & d & Hr2); [split_and!; eauto|].
  assert (∃ chunks, readToEnd r1 (λ chunks, inr chunks) w1 = Ok chunks w2)
    as (chunks & Hend).
  { unfold readToEnd. erewrite bind_Ok by reflexivity.
    erewrite bind_Ok by done. by eexists. }
  erewrite bind_Ok by done.
  assert (releaseLock r1 w2 = Ok tt (emit_event (EvRelease r1) w2)) as Hrel.
  { unfold releaseLock, _releaseLock. run. rewrite Hr2; simpl. rewrite Hr2; simpl.
    by destruct d. }
  erewrite bind_Ok by done.
  destruct (Reader_new_plain x (emit_event (EvRelease r1) w2) eq_refl)
    as (r2 & w3 & Hnew2 & Hr3 & Hat3 & Hd3).
  erewrite bind_Ok by done.
  exact (read_fresh_scalar r2 w3 x Hr3 eq_refl).
Qed.

(** ** Instances *)

Lemma unshift_then_readBytes_witness :
  ∃ w1 w2,
    unshift 1%positive [VStr "x"; VStr "yz"] two_chunks = Ok tt w1 ∧
    readBytes 1%positive (total_length [VStr "x"; VStr "yz"]) w1
      = Ok (VStr "xyz") w2 ∧
    view 1%positive w2 = Some ([], [VStr "ab"; VStr "cd"], EndDone).
Proof.
  apply (unshift_then_readBytes 1%positive two_chunks
           [] [VStr "ab"; VStr "cd"] EndDone [VStr "x"; VStr "yz"] (VStr "xyz")).
  - vm_compute. reflexivity.
  - discriminate.
  - repeat constructor; try discriminate; simpl; lia.
  - vm_compute. reflexivity.
Defined.

Lemma read_then_unshift_witness :
  ∃ w1 w2 b2 s2,
    read 1%positive two_chunks = Ok (Result false (VStr "ab")) w1 ∧
    unshift 1%positive [VStr "ab"] w1 = Ok tt w2 ∧
    view 1%positive w2 = Some (b2, s2, EndDone) ∧
    b2 ++ s2 = [] ++ [VStr "ab"; VStr "cd"] ∧
    buffered 1%positive w2 = VStr "ab" :: drop 1 [].
Proof.
  apply (read_then_unshift 1%positive two_chunks
           [] [VStr "ab"; VStr "cd"] EndDone (VStr "ab") [VStr "cd"]).
  - vm_compute. reflexivity.
  - reflexivity.
  - split; [discriminate|simpl; lia].
Defined.

Lemma readBytes_conserves_witness :
  ∃ b' s',
    view 1%positive (after (readBytes 1%positive 3) two_chunks)
      = Some (b', s', EndDone) ∧
    units (VStr "abc") ++ content (b' ++ s')
      = content ([] ++ [VStr "ab"; VStr "cd"]) ∧
    size (VStr "abc") ≤ 3 ∧
    (size (VStr "abc") = 3 ∨ (EndDone = EndDone ∧ b' = [] ∧ s' = [])).
Proof.
  apply (readBytes_conserves 1%positive two_chunks
           [] [VStr "ab"; VStr "cd"] EndDone 3 (VStr "abc")).
  - vm_compute. reflexivity.
  - vm_compute. reflexivity.
Defined.


Lemma readToEnd_collects_witness :
  ∃ w',
    view 1%positive w' = Some ([], [], EndDone) ∧
    readToEnd 1%positive concat two_buffered =
      lift (concat ([VStr "x"; VStr "y"] ++ [VStr "ab"; VStr "cd"])) w'.
Proof.
  apply (readToEnd_collects 1%positive two_buffered
           [VStr "x"; VStr "y"] [VStr "ab"; VStr "cd"] EndDone concat).
  vm_compute. reflexivity.
Defined.

Lemma reads_in_order_witness :
  ∃ w', reads (length ([VStr "x"; VStr "y"] ++ [VStr "ab"; VStr "cd"]) + 2)
          1%positive two_buffered =
          Ok ((Result false <$> ([VStr "x"; VStr "y"] ++ [VStr "ab"; VStr "cd"]))
                ++ replicate 2 (Result true VUndef)) w'.
Proof.
  apply (reads_in_order 1%positive two_buffered
           [VStr "x"; VStr "y"] [VStr "ab"; VStr "cd"] 2).
  vm_compute. reflexivity.
Defined.

Lemma scalar_is_read_once_witness :
  ∃ this w1 w2,
    Reader_new (IScalar (SStr "ab")) empty_world = Ok this w1 ∧
    reads 3 this w1 =
      Ok (Result false (scalar_value (SStr "ab"))
            :: replicate 2 (Result true VUndef)) w2.
Proof.
  apply (scalar_is_read_once (SStr "ab") empty_world 2).
  - reflexivity.
  - reflexivity.
Defined.

Lemma readBytes_source_failure_witness :
  ∃ w', readBytes 1%positive 5 failing = Throw (SourceError 7) w' ∧
        view 1%positive w' = Some ([], [], EndThrow (SourceError 7)).
Proof.
  apply (readBytes_source_failure 1%positive failing [] [VStr "a"]).
  - vm_compute. reflexivity.
  - repeat constructor; discriminate.
  - right. simpl. lia.
Defined.

Lemma releaseLock_on_string_witness :
  (@None loc = None →
   releaseLock 1%positive string_reader
     = Ok tt (emit_event (EvRelease 1%positive) string_reader)) ∧
  ∃ w1, unshift 1%positive [VStr "x"] string_reader = Ok tt w1 ∧
        releaseLock 1%positive w1 = Throw TypeError w1.
Proof.
  apply (releaseLock_on_string 1%positive string_reader
           (Reader (IScalar (SStr "ab")) None (SrcOneShot (SStr "ab") false))
           "ab" false [VStr "x"]).
  - vm_compute. reflexivity.
  - reflexivity.
  - reflexivity.
Defined.

Lemma release_then_reacquire_witness :
  ∃ w1 this2 w2,
    releaseLock 1%positive two_buffered = Ok tt w1 ∧
    Reader_new (IStream 1%positive) w1 = Ok this2 w2 ∧
    view this2 w2 = Some ([VStr "x"; VStr "y"], [VStr "ab"; VStr "cd"], EndDone) ∧
    view 1%positive w2 = Some ([VStr "x"; VStr "y"], [], EndThrow TypeError).
Proof.
  apply (release_then_reacquire 1%positive two_buffered
           (Reader (IStream 1%positive) (Some 1%positive) (SrcHandle 1%positive 1))
           1%positive 1 (Stream [VStr "ab"; VStr "cd"] Closed true 1)).
  - vm_compute. reflexivity.
  - reflexivity.
  - reflexivity.
  - vm_compute. reflexivity.
  - reflexivity.
  - discriminate.
  - vm_compute. reflexivity.
Defined.

Lemma readLine_first_line_witness :
  ∃ w' b' s',
    readLine 1%positive four_chunks_reader
      = Ok (VStr (str_append "abc" nl)) w' ∧
    view 1%positive w' = Some (b', s', EndDone) ∧
    text_ahead (b' ++ s') = str_append "def" (str_append nl "g").
Proof.
  exact (readLine_first_line 1%positive four_chunks_reader [] four_chunks EndDone
           ltac:(vm_compute; reflexivity)).
Defined.




Lemma unread_scalar_stays_readable_witness :
  ∃ first w1 w2 second w3 w4,
    Reader_new (IScalar (SBytes 5%positive [x01; x02]%byte)) empty_world
      = Ok first w1 ∧
    releaseLock first w1 = Ok tt w2 ∧
    Reader_new (IScalar (SBytes 5%positive [x01; x02]%byte)) w2 = Ok second w3 ∧
    read second w3
      = Ok (Result false (scalar_value (SBytes 5%positive [x01; x02]%byte))) w4.
Proof.
  apply (unread_scalar_stays_readable (SBytes 5%positive [x01; x02]%byte)
           empty_world).
  - reflexivity.
  - reflexivity.
Defined.

Lemma concatUint8Array_cases_witness :
  concatUint8Array [VBytes [x01; x02]%byte; VStr "a"] = inl MalformedInput.
Proof.
  apply (proj2 (proj2 concatUint8Array_cases)
           [VBytes [x01; x02]%byte; VStr "a"] (VStr "a")).
  - simpl. lia.
  - repeat constructor.
  - reflexivity.
Defined.
